(** * Relay core of the forwarding handler and the hosts registry

    A shallow embedding of two Go sources:
    - [registry/hosts.go]: the hosts registry and its late-binding wrapper;
    - the local forward handler ([Handle], [checkRateLimit], [handleHTTP]).

    Go values are embedded as follows.  A nil interface or nil pointer is
    [None]; calling a method on it is a run-time panic, written [Panic].
    Mutable objects reached through pointers (the registry, the node
    markers) live in explicit stores that are threaded through the code.
    Collaborators whose code is outside the two sources (the router, the hop,
    the rate limiter, the sniffer, the HTTP parser) are fields of an
    environment record: the code is verified for every behaviour they may
    show. *)

From stdpp Require Import gmap strings list fin_maps.
From Stdlib Require Import Ascii String.

Local Open Scope string_scope.

(** ** Go errors and panics *)

(** The error values that the two sources create or compare against:
    [io.EOF], the values built by [errors.New], and the faults reported by
    the network and by the HTTP parser (kept as their message). *)
Inductive error : Type :=
| io_EOF
| errors_New (msg : string)
| net_Error (msg : string).

#[global] Instance error_eq_dec : EqDecision error.
Proof. solve_decision. Defined.

(** A Go call either returns or panics. *)
Inductive outcome (A : Type) : Type :=
| Ret (a : A)
| Panic.
Arguments Ret {A} a.
Arguments Panic {A}.

(** ** The hosts registry ([registry/hosts.go]) *)

Module Registry.

(** [net.IP] is a byte slice; only its identity matters here. *)
Definition IP := list nat.

(** A concrete [hosts.HostMapper]: its [Lookup(network, host)]. *)
Abbreviation HostMapper := (string → string → list IP * bool).

(** Go's [([]net.IP)(nil), false]. *)
Definition not_found : list IP * bool := ([], false).

(** Overwrite policy of the backing store. *)
Inductive Policy := Overwrite | RejectDuplicate.

Definition ErrDuplicateName : error := errors_New "DuplicateName".

(** Modelled from the spec: the generic backing store [registry[T]]
    (its [Register] and [Get]) that [hostsRegistry] embeds is not among the
    sources.  The spec (4.1): [Register(name, impl)] stores [impl] under
    [name] and fails with a DuplicateName error if the policy forbids
    overwrite; a look-up re-resolves the name in the store and yields
    nothing when nothing is registered under it. *)
Definition registry_Register (p : Policy) (name : string) (v : HostMapper)
    (m : gmap string HostMapper) : gmap string HostMapper * option error :=
  match p, m !! name with
  | RejectDuplicate, Some _ => (m, Some ErrDuplicateName)
  | _, _ => (<[name := v]> m, None)
  end.

(** Modelled from the spec: [registry[T].Get], see [registry_Register]. *)
Definition registry_Get (name : string) (m : gmap string HostMapper)
    : option HostMapper :=
  m !! name.

(** The heap of [hostsRegistry] objects; a [*hostsRegistry] is a location,
    [None] at a location that holds no registry (a nil pointer). *)
Definition loc := nat.
Abbreviation heap := (gmap loc (gmap string HostMapper)).

(** [func (r *hostsRegistry) Register(name, v) error] *)
Definition Register (p : Policy) (r : loc) (name : string) (v : HostMapper)
    (σ : heap) : heap * outcome (option error) :=
  match σ !! r with
  | None => (σ, Panic)
  | Some m =>
      let '(m', err) := registry_Register p name v m in
      (<[r := m']> σ, Ret err)
  end.

(** [type hostsWrapper struct { name string; r *hostsRegistry }] *)
Record hostsWrapper := { name : string; r : loc }.

(** [func (r *hostsRegistry) Get(name string) hosts.HostMapper]: the
    interface value returned is the wrapper, or nil for the empty name. *)
Definition Get (r : loc) (name : string) : option hostsWrapper :=
  if decide (name ≠ "") then Some {| name := name; r := r |} else None.

(** [func (r *hostsRegistry) get(name string) hosts.HostMapper] *)
Definition get (r : loc) (name : string) (σ : heap)
    : outcome (option HostMapper) :=
  match σ !! r with
  | None => Panic
  | Some m => Ret (registry_Get name m)
  end.

(** [func (w *hostsWrapper) Lookup(network, host string) ([]net.IP, bool)] *)
Definition hostsWrapper_Lookup (w : hostsWrapper) (network host : string)
    (σ : heap) : outcome (list IP * bool) :=
  match get (r w) (name w) σ with
  | Panic => Panic
  | Ret None => Ret not_found
  | Ret (Some v) => Ret (v network host)
  end.

(** A call [h.Lookup(network, host)] on the interface value that [Get]
    returned: a nil interface has no method to run. *)
Definition Lookup (h : option hostsWrapper) (network host : string)
    (σ : heap) : outcome (list IP * bool) :=
  match h with
  | None => Panic
  | Some w => hostsWrapper_Lookup w network host σ
  end.

End Registry.

(** ** Go's [net.SplitHostPort] and [net.JoinHostPort]

    The handler calls both; they are transcribed from Go's [net] package.
    Indices are Go [int]s, with [-1] for "not found". *)

Module GoNet.

Local Open Scope Z_scope.

(** [bytealg.IndexByteString]: index of the first [c] in [s], or [-1]. *)
Fixpoint IndexByteString (s : string) (c : ascii) : Z :=
  match s with
  | EmptyString => -1
  | String a s' =>
      if Ascii.eqb a c then 0
      else let i := IndexByteString s' c in
           if i <? 0 then -1 else i + 1
  end.

(** [bytealg.LastIndexByteString]: index of the last [c] in [s], or [-1]. *)
Fixpoint LastIndexByteString (s : string) (c : ascii) : Z :=
  match s with
  | EmptyString => -1
  | String a s' =>
      let i := LastIndexByteString s' c in
      if 0 <=? i then i + 1
      else if Ascii.eqb a c then 0 else -1
  end.

(** [len(s)] *)
Definition len (s : string) : Z := Z.of_nat (String.length s).

(** The slice [s[lo:hi]]; the callers below keep [0 <= lo <= hi <= len s]. *)
Definition slice (s : string) (lo hi : Z) : string :=
  String.substring (Z.to_nat lo) (Z.to_nat (hi - lo)) s.

(** [s[i] == c] *)
Definition byte_at_is (s : string) (i : Z) (c : ascii) : bool :=
  match String.get (Z.to_nat i) s with
  | Some a => Ascii.eqb a c
  | None => false
  end.

(** [&AddrError{Err: why, Addr: addr}] *)
Definition addrErr (addr why : string) : string * string * option error :=
  ("", "", Some (net_Error ("address " ++ addr ++ ": " ++ why)%string)).

Definition missingPort : string := "missing port in address".
Definition tooManyColons : string := "too many colons in address".

(** [func SplitHostPort(hostport string) (host, port string, err error)] *)
Definition SplitHostPort (hostport : string) : string * string * option error :=
  let i := LastIndexByteString hostport ":" in
  if i <? 0 then addrErr hostport missingPort
  else
    let bracketed := byte_at_is hostport 0 "[" in
    let end_ := IndexByteString hostport "]" in
    if bracketed && (end_ <? 0) then
      addrErr hostport "missing ']' in address"
    else if bracketed && (end_ + 1 =? len hostport) then
      addrErr hostport missingPort
    else if bracketed && negb (end_ + 1 =? i) then
      if byte_at_is hostport (end_ + 1) ":"
      then addrErr hostport tooManyColons
      else addrErr hostport missingPort
    else if negb bracketed && (0 <=? IndexByteString (slice hostport 0 i) ":") then
      addrErr hostport tooManyColons
    else
      let host := if bracketed then slice hostport 1 end_
                  else slice hostport 0 i in
      let j := if bracketed then 1 else 0 in
      let k := if bracketed then end_ + 1 else 0 in
      if 0 <=? IndexByteString (slice hostport j (len hostport)) "[" then
        addrErr hostport "unexpected '[' in address"
      else if 0 <=? IndexByteString (slice hostport k (len hostport)) "]" then
        addrErr hostport "unexpected ']' in address"
      else
        (host, slice hostport (i + 1) (len hostport), None).

(** [func JoinHostPort(host, port string) string] *)
Definition JoinHostPort (host port : string) : string :=
  if 0 <=? IndexByteString host ":"
  then ("[" ++ host ++ "]:" ++ port)%string
  else (host ++ ":" ++ port)%string.

(** The characters that [SplitHostPort] gives a meaning to. *)
Definition plain (s : string) : Prop :=
  IndexByteString s ":" = -1 ∧ IndexByteString s "[" = -1
  ∧ IndexByteString s "]" = -1.

End GoNet.

(** ** Go's [http.Header] and the request

    [http.Header] is a [map[string][]string] keyed by canonical names; its
    [Set] and [Get] canonicalise the key with
    [textproto.CanonicalMIMEHeaderKey], transcribed here. *)

Module GoHTTP.

(** [validHeaderFieldByte]: the token characters of RFC 7230. *)
Definition validHeaderFieldByte (c : ascii) : bool :=
  let n := nat_of_ascii c in
  ((48 <=? n) && (n <=? 57) || (97 <=? n) && (n <=? 122)
   || (65 <=? n) && (n <=? 90))%nat
  || bool_decide (c ∈ ["!"; "#"; "$"; "%"; "&"; "'"; "*"; "+"; "-"; ".";
                       "^"; "_"; "`"; "|"; "~"]%char).

Definition is_lower (c : ascii) : bool :=
  let n := nat_of_ascii c in ((97 <=? n) && (n <=? 122))%nat.
Definition is_upper (c : ascii) : bool :=
  let n := nat_of_ascii c in ((65 <=? n) && (n <=? 90))%nat.

(** The second loop of [canonicalMIMEHeaderKey]: upper case for the first
    letter and after each dash, lower case elsewhere ([toLower] is 32). *)
Fixpoint canonicalize (upper : bool) (s : string) : string :=
  match s with
  | EmptyString => EmptyString
  | String c s' =>
      let c' := if upper && is_lower c then ascii_of_nat (nat_of_ascii c - 32)
                else if negb upper && is_upper c
                     then ascii_of_nat (nat_of_ascii c + 32)
                else c in
      String c' (canonicalize (Ascii.eqb c' "-") s')
  end.

Fixpoint all_valid (s : string) : bool :=
  match s with
  | EmptyString => true
  | String c s' => validHeaderFieldByte c && all_valid s'
  end.

(** [textproto.CanonicalMIMEHeaderKey]: a key holding a byte that is not a
    token character (a space included) is returned unchanged. *)
Definition CanonicalMIMEHeaderKey (s : string) : string :=
  if all_valid s then canonicalize true s else s.

Abbreviation Header := (gmap string (list string)).

(** [func (h Header) Set(key, value string)] *)
Definition Header_Set (key value : string) (h : Header) : Header :=
  <[CanonicalMIMEHeaderKey key := [value]]> h.

(** [func (h Header) Get(key string) string] *)
Definition Header_Get (key : string) (h : Header) : string :=
  match h !! CanonicalMIMEHeaderKey key with
  | Some (v :: _) => v
  | _ => ""
  end.

(** The fields of [http.Request] that a server-side parse fills in. *)
Record Request := {
  Method : string;
  RequestURI : string;
  Proto : string;
  Header_ : Header;
  Body : list Byte.byte;
  Host : string;
}.

End GoHTTP.

(** ** The forward handler *)

Module Forward.

Import GoNet GoHTTP.

(** *** Collaborators *)

(** What the reading side of a connection yields: [data], then [fin]
    ([io_EOF] for a clean close, a fault otherwise). *)
Record Stream := { data : list Byte.byte; fin : error }.

(** The accepted [net.Conn]. *)
Record Conn := {
  RemoteAddr : string;          (* conn.RemoteAddr().String() *)
  LocalAddr : string;           (* conn.LocalAddr().String() *)
  isPacketConn : bool;          (* conn.(net.PacketConn) succeeds *)
  conn_in : Stream;             (* what the client sends *)
}.

(** The connection the router dialled. *)
Record TargetConn := {
  target_in : Stream;           (* what the target sends *)
}.

(** [selector.Marker]: a health cell shared by all sessions that target
    the node, addressed by its identity.  The spec (3): the state is at
    least alive or dead, [Mark] on a failure, [Reset] on a success. *)
Definition MarkerId := nat.
Inductive MarkerState := Alive | Dead.

(** [chain.HTTPNodeSettings] *)
Record HTTPNodeSettings := {
  settings_Host : string;
  settings_Header : gmap string string;
}.

(** [chain.Node], with what the handler reads of it: [Addr], [Marker()]
    (nil for a node built without one) and [Options().HTTP]. *)
Record Node := {
  Addr : string;
  Marker : option MarkerId;
  Options_HTTP : option HTTPNodeSettings;
}.

(** [chain.Hop]: [Select(ctx, host, protocol)], which may read the markers. *)
Definition Hop := gmap MarkerId MarkerState → string → string → option Node.

(** [chain.Router]: [Dial(ctx, network, address)]. *)
Definition Router := string → string → error + TargetConn.

(** [rate.RateLimiter]: [Limiter(key)] gives a limiter or nil, whose
    [Allow(n)] answers. *)
Definition RateLimiter := string → option (Z → bool).

(** *** What a session does *)

Inductive Level := Info | Debug | Trace | Error.
Inductive Endpoint := Client | Target.
Inductive Task := Passthrough | Rewrite.

(** One step of the rewrite task of [handleHTTP]. *)
Inductive HTTPEvent :=
| EvReadRequest (res : error + Request)         (* http.ReadRequest(br) *)
| EvDump (req : Request)                        (* log.Trace(dump) *)
| EvWrite (req : Request) (res : option error)  (* req.Write(dst) *)
| EvRawCopy (bytes : list Byte.byte).           (* xnet.CopyBuffer(dst, src, 8192) *)

Inductive Event :=
| EvLog (lvl : Level) (msg : string)
| EvLogError (e : error)
| EvLimiter (key : string)
| EvAllow (key : string) (n : Z) (ok : bool)
| EvSniffing
| EvSelect (host protocol : string)
| EvDial (network address : string)
| EvMark (m : MarkerId)
| EvReset (m : MarkerId)
| EvClose (e : Endpoint)
| EvTransport (to_target to_client : list Byte.byte) (res : option error)
| EvHandleHTTP (to_client : list Byte.byte) (rewrite : list HTTPEvent)
               (res : option error).

(** The state a session runs in: the shared markers and the trace of what
    the session did, oldest first. *)
Record World := {
  markers : gmap MarkerId MarkerState;
  trace : list Event;
}.

(** State passing with panics. *)
Definition M (A : Type) : Type := World → World * outcome A.

#[global] Instance M_ret : MRet M := λ A a w, (w, Ret a).

#[global] Instance M_bind : MBind M := λ A B k m w,
  match m w with
  | (w', Ret a) => k a w'
  | (w', Panic) => (w', Panic)
  end.

Definition emit (e : Event) : M unit :=
  λ w, ({| markers := markers w; trace := (trace w ++ [e])%list |}, Ret tt).

(** [defer d] before [body]: [d] runs when [body] is left, by return or by
    panic, and does not change what is returned. *)
Definition defer {A} (d : M unit) (body : M A) : M A :=
  λ w, match body w with
       | (w', r) => (fst (d w'), r)
       end.

(** [marker.Mark()] and [marker.Reset()] on the interface value [marker]:
    a nil interface panics. *)
Definition Marker_Mark (marker : option MarkerId) : M unit :=
  match marker with
  | None => λ w, (w, Panic)
  | Some m => λ w, ({| markers := <[m := Dead]> (markers w);
                       trace := (trace w ++ [EvMark m])%list |}, Ret tt)
  end.

Definition Marker_Reset (marker : option MarkerId) : M unit :=
  match marker with
  | None => λ w, (w, Panic)
  | Some m => λ w, ({| markers := <[m := Alive]> (markers w);
                       trace := (trace w ++ [EvReset m])%list |}, Ret tt)
  end.

(** *** Byte copies *)

(** Modelled from the spec: [xnet.CopyBuffer(dst, src, size)] is not among
    the sources.  The spec (4.6): it copies bytes unmodified from [src] to
    [dst] until EOF or error; like [io.CopyBuffer] it reports a clean end
    of stream as a nil error. *)
Definition CopyBuffer (src : Stream) : list Byte.byte * option error :=
  (data src, if decide (fin src = io_EOF) then None else Some (fin src)).

(** The result that [<-errc] hands over: nil and [io.EOF] are a success,
    anything else is the error (lines 214-218, and the same test in the
    plain transport). *)
Definition normalize (err : option error) : option error :=
  match err with
  | Some e => if decide (e ≠ io_EOF) then Some e else None
  | None => None
  end.

(** The scheduler's part in a two-way relay: which direction's result is
    observed first, and how many bytes the other one had moved by then. *)
Record Schedule := {
  first_done : Endpoint;        (* whose reading side ended first *)
  other_moved : nat;
}.

(** Modelled from the spec: [xnet.Transport(rw1, rw2)] is not among the
    sources.  The spec (4.5 step 7): a plain full-duplex byte copy between
    client and target until either direction reaches end-of-stream or
    errors; end-of-stream is a normal termination.  Returns the bytes
    delivered to the target, those delivered to the client and the error. *)
Definition Transport (s : Schedule) (client target : Stream)
    : list Byte.byte * list Byte.byte * option error :=
  let '(c2t, e1) := CopyBuffer client in
  let '(t2c, e2) := CopyBuffer target in
  match first_done s with
  | Client => (c2t, take (other_moved s) t2c, normalize e1)
  | Target => (take (other_moved s) c2t, t2c, normalize e2)
  end.

(** *** The environment of one session *)

(** What the surroundings decide while the rewrite task handles one parsed
    request: the order in which Go ranges over the header map, what
    [req.Write(dst)] returns, and what is left to read on [src] itself,
    below the [bufio.Reader], once the request has been parsed. *)
Record ReqEnv := {
  range_order : list (string * string);
  write_result : option error;
  unbuffered : Stream;
}.

(** The client direction as [http.ReadRequest] sees it: each call either
    fails (with [io_EOF] at a clean end) or yields a request. *)
Inductive Script :=
| ReadFails (e : error)
| ReadOk (req : Request) (env : ReqEnv) (next : Script).

Record Env := {
  Sniffing : Conn → Stream * string * string;  (* forward.Sniffing(ctx, conn) *)
  ReadRequests : Stream → Script;              (* the reader, through http.ReadRequest *)
  schedule : Schedule;                         (* of the plain transport *)
  first_result : Task;                         (* whose send [<-errc] receives *)
  trace_enabled : bool;                        (* log.IsLevelEnabled(logger.TraceLevel) *)
}.

(** Modelled from the spec: the constant [forward.ProtoHTTP] is not among
    the sources; the sniffer classifies a stream as ["http"] (spec 4.2). *)
Definition ProtoHTTP : string := "http".

(** [type forwardHandler struct], after [Init]: the router is set, the
    logger is present. *)
Record forwardHandler := {
  hop : option Hop;
  router : Router;
  md_sniffing : bool;
  options_RateLimiter : option RateLimiter;
}.

(** *** [checkRateLimit] (lines 156-166) *)
Definition checkRateLimit (h : forwardHandler) (addr : string) : M bool :=
  match options_RateLimiter h with
  | None => mret true
  | Some rl =>
      let '(host, _, _) := SplitHostPort addr in
      emit (EvLimiter host);;
      match rl host with
      | Some limiter =>
          let ok := limiter 1%Z in
          emit (EvAllow host 1%Z ok);; mret ok
      | None => mret true
      end
  end.

(** *** [handleHTTP] (lines 168-219) *)

(** Lines 183-188: the overrides applied to a parsed request.
    [req.Host = host] and [req.Header.Set(k, v)]. *)
Definition set_Host (host : string) (req : Request) : Request :=
  {| Method := Method req; RequestURI := RequestURI req; Proto := Proto req;
     Header_ := Header_ req; Body := Body req; Host := host |}.

Definition set_Header (k v : string) (req : Request) : Request :=
  {| Method := Method req; RequestURI := RequestURI req; Proto := Proto req;
     Header_ := Header_Set k v (Header_ req); Body := Body req;
     Host := Host req |}.

(** Lines 186-188: the loop over the configured headers, in the order in
    which Go ranges over the map. *)
Definition apply_headers (order : list (string * string)) (req : Request)
    : Request :=
  foldl (λ req kv, set_Header kv.1 kv.2 req) req order.

Definition rewriteRequest (settings : HTTPNodeSettings)
    (order : list (string * string)) (req : Request) : Request :=
  let req := if decide (settings_Host settings ≠ "")
             then set_Host (settings_Host settings) req else req in
  apply_headers order req.

(** Lines 174-212, the second goroutine: the events of the task and the
    error it sends on [errc] when it leaves the loop. *)
Fixpoint rewriteTask (tr : bool) (settings : HTTPNodeSettings) (s : Script)
    : list HTTPEvent * error :=
  match s with
  | ReadFails e => ([EvReadRequest (inl e)], e)
  | ReadOk req env next =>
      let req' := rewriteRequest settings (range_order env) req in
      let pre := EvReadRequest (inr req)
                 :: (if tr then [EvDump req'] else []) in
      match write_result env with
      | Some e => ((pre ++ [EvWrite req' (Some e)])%list, e)
      | None =>
          if decide (Header_Get "Upgrade" (Header_ req') = "websocket") then
            let '(bytes, err) := CopyBuffer (unbuffered env) in
            ((pre ++ [EvWrite req' None; EvRawCopy bytes])%list,
             match err with None => io_EOF | Some e => e end)
          else
            let '(evs, e) := rewriteTask tr settings next in
            ((pre ++ EvWrite req' None :: evs)%list, e)
      end
  end.

(** The value received from [errc]: the passthrough task sends what its
    copy returned, the rewrite task the error that ended its loop. *)
Definition received (first : Task) (passthrough : option error)
    (rewrite : error) : option error :=
  match first with
  | Passthrough => passthrough
  | Rewrite => Some rewrite
  end.

(** [handleHTTP]: the passthrough task copies from [dst] to [src], the
    rewrite task runs its loop, and the first value sent on [errc] decides
    what is returned.  The event records what each task does when left to
    run; the session ends, and closes both connections, on the first
    result. *)
Definition handleHTTP (E : Env) (src : Stream) (dst : TargetConn)
    (httpSettings : HTTPNodeSettings) : M (option error) :=
  let '(to_client, e1) := CopyBuffer (target_in dst) in
  let '(evs, e2) := rewriteTask (trace_enabled E) httpSettings
                      (ReadRequests E src) in
  let res := normalize (received (first_result E) e1 e2) in
  emit (EvHandleHTTP to_client evs res);; mret res.

(** *** [Handle] (lines 65-154) *)

(** Lines 118-153: the dial through the router and the relay that follows.
    [network], [rw] and [protocol] are the locals of [Handle] at that
    point. *)
Definition dial_and_relay (h : forwardHandler) (E : Env) (conn : Conn)
    (network : string) (rw : Stream) (protocol : string) (target : Node)
    : M (option error) :=
  emit (EvLog Debug (RemoteAddr conn ++ " >> " ++ Addr target));;
  emit (EvDial network (Addr target));;
  match router h network (Addr target) with
  | inl err =>
      emit (EvLogError err);;
      match Marker target with
      | Some m => Marker_Mark (Some m)
      | None => mret ()
      end;;
      mret (Some err)
  | inr cc =>
      defer (emit (EvClose Target)) (
        match Marker target with
        | Some m => Marker_Reset (Some m)
        | None => mret ()
        end;;
        emit (EvLog Debug (RemoteAddr conn ++ " <-> " ++ Addr target));;
        match String.eqb protocol ProtoHTTP, Options_HTTP target with
        | true, Some settings =>
            handleHTTP E rw cc settings;; mret ()
        | _, _ =>
            let '(to_target, to_client, res) :=
              Transport (schedule E) rw (target_in cc) in
            emit (EvTransport to_target to_client res)
        end;;
        emit (EvLog Debug (RemoteAddr conn ++ " >-< " ++ Addr target));;
        mret None)
  end.

(** Lines 100-102. *)
Definition with_port (host : string) : string :=
  match SplitHostPort host with
  | (_, _, Some _) => JoinHostPort host "0"
  | (_, _, None) => host
  end.

(** [func (h *forwardHandler) Handle(ctx, conn, opts...) error]; the
    returned [error] is [None] for nil. *)
Definition Handle (h : forwardHandler) (E : Env) (conn : Conn)
    : M (option error) :=
  defer (emit (EvClose Client)) (
    emit (EvLog Info (RemoteAddr conn ++ " <> " ++ LocalAddr conn));;
    defer (emit (EvLog Info (RemoteAddr conn ++ " >< " ++ LocalAddr conn))) (
      ok ← checkRateLimit h (RemoteAddr conn);
      if negb ok then mret None
      else
        let network := if isPacketConn conn then "udp" else "tcp" in
        '(rw, host, protocol) ←
          (if md_sniffing h && String.eqb network "tcp" then
             let '(rw, host, protocol) := Sniffing E conn in
             emit EvSniffing;;
             emit (EvLog Debug ("sniffing: host=" ++ host
                                ++ ", protocol=" ++ protocol));;
             mret (rw, host, protocol)
           else mret (conn_in conn, "", ""));
        let host := with_port host in
        match hop h with
        | Some hp =>
            sel ← (λ w, (w, Ret (hp (markers w) host protocol)));
            emit (EvSelect host protocol);;
            match sel with
            | None =>
                let err := errors_New "target not available" in
                emit (EvLogError err);; mret (Some err)
            | Some target =>
                dial_and_relay h E conn network rw protocol target
            end
        | None =>
            dial_and_relay h E conn network rw protocol
              {| Addr := host; Marker := None; Options_HTTP := None |}
        end)).

(** *** Observations on a session *)

(** The world after some more events. *)
Definition add_events (w : World) (evs : list Event) : World :=
  {| markers := markers w; trace := (trace w ++ evs)%list |}.

(** The key under which the session is rate limited. *)
Definition limiter_key (conn : Conn) : string :=
  (SplitHostPort (RemoteAddr conn)).1.1.

(** The answer of the admission check. *)
Definition allowed (h : forwardHandler) (conn : Conn) : bool :=
  match options_RateLimiter h with
  | None => true
  | Some rl => match rl (limiter_key conn) with
               | Some limiter => limiter 1%Z
               | None => true
               end
  end.

(** The network the session dials on. *)
Definition network_of (conn : Conn) : string :=
  if isPacketConn conn then "udp" else "tcp".

(** The reader and the hints the session has after the sniffing step. *)
Definition sniffed (h : forwardHandler) (E : Env) (conn : Conn)
    : Stream * string * string :=
  if md_sniffing h && negb (isPacketConn conn) then Sniffing E conn
  else (conn_in conn, "", "").

(** The node the session resolves, if any. *)
Definition resolved (h : forwardHandler) (E : Env) (conn : Conn)
    (ms : gmap MarkerId MarkerState) : option Node :=
  let '(_, host, protocol) := sniffed h E conn in
  match hop h with
  | Some hp => hp ms (with_port host) protocol
  | None => Some {| Addr := with_port host; Marker := None;
                    Options_HTTP := None |}
  end.

(** The dial attempts of a trace. *)
Definition dials (evs : list Event) : list (string * string) :=
  omap (λ e, match e with
             | EvDial network address => Some (network, address)
             | _ => None
             end) evs.

(** The relay steps of a trace. *)
Definition is_relay (e : Event) : bool :=
  match e with
  | EvTransport _ _ _ | EvHandleHTTP _ _ _ => true
  | _ => false
  end.

(** The loop of the rewrite task, started on [s], gets to the iteration
    that starts on [s'] after the events [evs]: every request before was
    written without error and was no websocket upgrade. *)
Inductive loop_reaches (tr : bool) (settings : HTTPNodeSettings)
    : Script → list HTTPEvent → Script → Prop :=
| reaches_here s : loop_reaches tr settings s [] s
| reaches_next req env next evs s' :
    write_result env = None →
    Header_Get "Upgrade"
      (Header_ (rewriteRequest settings (range_order env) req)) ≠ "websocket" →
    loop_reaches tr settings next evs s' →
    loop_reaches tr settings (ReadOk req env next)
      (EvReadRequest (inr req)
         :: (if tr then [EvDump (rewriteRequest settings (range_order env) req)]
             else [])
         ++ EvWrite (rewriteRequest settings (range_order env) req) None
         :: evs)%list
      s'.

(** *** Further observations, used to state what a session does *)

(** The events of the sniffing step. *)
Definition sniff_events (h : forwardHandler) (E : Env) (conn : Conn)
    : list Event :=
  if md_sniffing h && negb (isPacketConn conn) then
    [EvSniffing;
     EvLog Debug ("sniffing: host=" ++ (sniffed h E conn).1.2
                  ++ ", protocol=" ++ (sniffed h E conn).2)%string]
  else [].

(** The relay step of a session whose dial gave [cc]. *)
Definition relay_event (E : Env) (rw : Stream) (protocol : string)
    (target : Node) (cc : TargetConn) : Event :=
  match String.eqb protocol ProtoHTTP, Options_HTTP target with
  | true, Some settings =>
      EvHandleHTTP (CopyBuffer (target_in cc)).1
        (rewriteTask (trace_enabled E) settings (ReadRequests E rw)).1
        (normalize (received (first_result E) (CopyBuffer (target_in cc)).2
           (rewriteTask (trace_enabled E) settings (ReadRequests E rw)).2))
  | _, _ =>
      EvTransport (Transport (schedule E) rw (target_in cc)).1.1
        (Transport (schedule E) rw (target_in cc)).1.2
        (Transport (schedule E) rw (target_in cc)).2
  end.

(** The markers once the marker of [target], if it has one, is set to [st]. *)
Definition set_marker (target : Node) (st : MarkerState)
    (ms : gmap MarkerId MarkerState) : gmap MarkerId MarkerState :=
  match Marker target with
  | Some m => <[m := st]> ms
  | None => ms
  end.

(** The event of a guarded [Mark] or [Reset] on the marker of [target]. *)
Definition marker_events (target : Node) (ev : MarkerId → Event)
    : list Event :=
  match Marker target with
  | Some m => [ev m]
  | None => []
  end.

(** The events of the admission check. *)
Definition limiter_events (h : forwardHandler) (conn : Conn) : list Event :=
  match options_RateLimiter h with
  | None => []
  | Some rl =>
      EvLimiter (limiter_key conn)
      :: match rl (limiter_key conn) with
         | Some limiter => [EvAllow (limiter_key conn) 1 (limiter 1%Z)]
         | None => []
         end
  end.

(** The log line that opens every session (line 74). *)
Definition opening (conn : Conn) : Event :=
  EvLog Info (RemoteAddr conn ++ " <> " ++ LocalAddr conn)%string.

(** What the two deferred calls of lines 66 and 75 leave in the trace. *)
Definition closing (conn : Conn) : list Event :=
  [EvLog Info (RemoteAddr conn ++ " >< " ++ LocalAddr conn)%string;
   EvClose Client].

(** The error of line 112. *)
Definition ErrTargetNotAvailable : error := errors_New "target not available".

(** The values that [order] sets under the canonical name [c], in the
    order in which they are set. *)
Definition set_under (c : string) (order : list (string * string))
    : list string :=
  omap (λ kv, if decide (CanonicalMIMEHeaderKey kv.1 = c)
              then Some kv.2 else None) order.

End Forward.

(** ** Observers of a whole session *)

Module Session.

Import GoNet GoHTTP Forward.
Local Open Scope list_scope.

(** The event of the call of [Select], when a hop is attached. *)
Definition select_events (h : forwardHandler) (E : Env) (conn : Conn)
    : list Event :=
  match hop h with
  | Some _ => [EvSelect (with_port (sniffed h E conn).1.2) (sniffed h E conn).2]
  | None => []
  end.

(** The events of lines 118-153 for the node [target]. *)
Definition dial_events (h : forwardHandler) (E : Env) (conn : Conn)
    (target : Node) : list Event :=
  [EvLog Debug (RemoteAddr conn ++ " >> " ++ Addr target)%string;
   EvDial (network_of conn) (Addr target)]
  ++ match router h (network_of conn) (Addr target) with
     | inl err => EvLogError err :: marker_events target EvMark
     | inr cc =>
         marker_events target EvReset
         ++ [EvLog Debug (RemoteAddr conn ++ " <-> " ++ Addr target)%string;
             relay_event E (sniffed h E conn).1.1 (sniffed h E conn).2 target cc;
             EvLog Debug (RemoteAddr conn ++ " >-< " ++ Addr target)%string;
             EvClose Target]
     end.

(** The events of a whole session that starts with the markers [ms]. *)
Definition session_events (h : forwardHandler) (E : Env) (conn : Conn)
    (ms : gmap MarkerId MarkerState) : list Event :=
  opening conn :: limiter_events h conn
  ++ (if allowed h conn then
        sniff_events h E conn ++ select_events h E conn
        ++ match resolved h E conn ms with
           | None => [EvLogError ErrTargetNotAvailable]
           | Some target => dial_events h E conn target
           end
      else [])
  ++ closing conn.

(** The session gets a connection to its target. *)
Definition dial_ok (h : forwardHandler) (E : Env) (conn : Conn)
    (ms : gmap MarkerId MarkerState) : bool :=
  allowed h conn &&
  match resolved h E conn ms with
  | Some target => match router h (network_of conn) (Addr target) with
                   | inr _ => true
                   | inl _ => false
                   end
  | None => false
  end.

(** The connections closed in a trace, in order. *)
Definition closes (evs : list Event) : list Endpoint :=
  omap (λ e, match e with EvClose c => Some c | _ => None end) evs.


(** The markers touched in a trace. *)
Definition marked (evs : list Event) : list MarkerId :=
  omap (λ e, match e with
             | EvMark m | EvReset m => Some m
             | _ => None
             end) evs.

(** The requests of a script, with their environments. *)
Fixpoint requests (s : Script) : list (Request * ReqEnv) :=
  match s with
  | ReadFails _ => []
  | ReadOk req env next => (req, env) :: requests next
  end.

(** The requests handed to [req.Write] in the events of the rewrite task. *)
Definition writes (evs : list HTTPEvent) : list Request :=
  omap (λ e, match e with EvWrite req _ => Some req | _ => None end) evs.

(** The requests that [http.ReadRequest] returned. *)
Definition parsed (evs : list HTTPEvent) : list Request :=
  omap (λ e, match e with EvReadRequest (inr req) => Some req | _ => None end)
       evs.

(** The raw copies of the rewrite task. *)
Definition raw_copies (evs : list HTTPEvent) : list (list Byte.byte) :=
  omap (λ e, match e with EvRawCopy bytes => Some bytes | _ => None end) evs.

(** The relay steps of a trace, in order. *)
Definition relays (evs : list Event) : list Event :=
  omap (λ e, if is_relay e then Some e else None) evs.

(** The request that one iteration of the rewrite task hands to
    [req.Write]. *)
Definition rewritten (settings : HTTPNodeSettings) (p : Request * ReqEnv)
    : Request :=
  rewriteRequest settings (range_order p.2) p.1.

(** No bracket in [s]. *)
Definition bracket_free (s : string) : Prop :=
  (IndexByteString s "[" = -1 ∧ IndexByteString s "]" = -1)%Z.

End Session.

(** ** Concrete registries *)

Module RegistryExamples.

Import Registry.

Definition mapper_A : HostMapper := λ _ _, ([[10; 0; 0; 1]], true).
Definition mapper_B : HostMapper := λ _ _, ([[10; 0; 0; 2]], true).
Definition heap0 : heap := {[ 0 := ∅ ]}.
Definition heap1 : heap := (Register Overwrite 0 "dns" mapper_A heap0).1.
Definition heap2 : heap := (Register Overwrite 0 "dns" mapper_B heap1).1.

End RegistryExamples.

(** ** Concrete sessions *)

Module Examples.

Import GoNet GoHTTP Forward.

Definition client0 : Conn :=
  {| RemoteAddr := "10.0.0.1:5000"; LocalAddr := "192.168.1.10:8080";
     isPacketConn := false;
     conn_in := {| data := [Byte.x01; Byte.x02]; fin := io_EOF |} |}.

Definition client1 : Conn :=
  {| RemoteAddr := "10.0.0.2:6000"; LocalAddr := "192.168.1.20:9090";
     isPacketConn := false;
     conn_in := {| data := [Byte.x07]; fin := io_EOF |} |}.

(** A target that sends one byte and then resets the connection. *)
Definition target0 : TargetConn :=
  {| target_in := {| data := [Byte.x03];
                     fin := net_Error "connection reset by peer" |} |}.

(** A limiter that denies the host 10.0.0.1 and knows no other. *)
Definition limiter0 : RateLimiter :=
  λ key, if decide (key = "10.0.0.1") then Some (λ _, false) else None.

Definition handler0 : forwardHandler :=
  {| hop := None; router := λ _ _, inr target0; md_sniffing := false;
     options_RateLimiter := None |}.

Definition handler_limited : forwardHandler :=
  {| hop := None; router := λ _ _, inr target0; md_sniffing := false;
     options_RateLimiter := Some limiter0 |}.

Definition node0 : Node :=
  {| Addr := "192.0.2.7:80"; Marker := Some 4; Options_HTTP := None |}.

(** A hop with the single node [node0], whatever the hints. *)
Definition handler_hop : forwardHandler :=
  {| hop := Some (λ _ _ _, Some node0); router := λ _ _, inr target0;
     md_sniffing := false; options_RateLimiter := None |}.

(** A hop with no candidate. *)
Definition handler_empty_hop : forwardHandler :=
  {| hop := Some (λ _ _ _, None); router := λ _ _, inr target0;
     md_sniffing := false; options_RateLimiter := None |}.

Definition env0 : Env :=
  {| Sniffing := λ c, (conn_in c, "", "");
     ReadRequests := λ _, ReadFails io_EOF;
     schedule := {| first_done := Target; other_moved := 1 |};
     first_result := Rewrite;
     trace_enabled := false |}.

Definition world0 : World := {| markers := ∅; trace := [] |}.

(** A websocket upgrade request and the request that follows it. *)
Definition request_ws : Request :=
  {| Method := "GET"; RequestURI := "/chat"; Proto := "HTTP/1.1";
     Header_ := {[ "Upgrade" := ["websocket"] ]}; Body := [];
     Host := "old" |}.

Definition request_next : Request :=
  {| Method := "GET"; RequestURI := "/"; Proto := "HTTP/1.1";
     Header_ := ∅; Body := []; Host := "old" |}.

(** Settings that overwrite the Upgrade header. *)
Definition settings_h2c : HTTPNodeSettings :=
  {| settings_Host := "new"; settings_Header := {[ "Upgrade" := "h2c" ]} |}.

Definition settings_fwd : HTTPNodeSettings :=
  {| settings_Host := "new"; settings_Header := {[ "X-Forwarded" := "1" ]} |}.

(** A hop whose single node carries HTTP settings, behind a sniffer that
    classifies the stream as HTTP, on a stream that does not parse. *)
Definition node_http : Node :=
  {| Addr := "192.0.2.8:80"; Marker := Some 5;
     Options_HTTP := Some settings_fwd |}.

Definition handler_http : forwardHandler :=
  {| hop := Some (λ _ _ _, Some node_http); router := λ _ _, inr target0;
     md_sniffing := true; options_RateLimiter := None |}.

Definition env_http : Env :=
  {| Sniffing := λ c, (conn_in c, "example.com", "http");
     ReadRequests := λ _, ReadFails (net_Error "malformed HTTP request");
     schedule := {| first_done := Target; other_moved := 1 |};
     first_result := Rewrite;
     trace_enabled := false |}.



Definition reqenv (order : list (string * string)) : ReqEnv :=
  {| range_order := order; write_result := None;
     unbuffered := {| data := [Byte.x09]; fin := io_EOF |} |}.

Definition script_ws (order : list (string * string)) : Script :=
  ReadOk request_ws (reqenv order)
    (ReadOk request_next (reqenv order) (ReadFails io_EOF)).

(** A client on an IPv6 loopback address, and one whose address has no
    port. *)
Definition client_v6 : Conn :=
  {| RemoteAddr := "[::1]:5000"; LocalAddr := "[::1]:8080";
     isPacketConn := false;
     conn_in := {| data := []; fin := io_EOF |} |}.

Definition client_unix : Conn :=
  {| RemoteAddr := "/run/app.sock"; LocalAddr := "/run/gost.sock";
     isPacketConn := false;
     conn_in := {| data := []; fin := io_EOF |} |}.

(** A router whose dial is refused. *)
Definition handler_refused : forwardHandler :=
  {| hop := None; router := λ _ _, inl (net_Error "connection refused");
     md_sniffing := false; options_RateLimiter := None |}.


(** Settings with two header names of different canonical forms. *)
Definition settings_two : HTTPNodeSettings :=
  {| settings_Host := "";
     settings_Header := <[ "x-b" := "2" ]> {[ "X-A" := "1" ]} |}.
End Examples.

(** * Properties of the hosts registry *)

Module RegistryFacts.

Import Registry RegistryExamples.

(** A handle is a name and a pointer: every look-up reads the registry as
    it is when the call is made. *)
Lemma Lookup_resolves r n h network host (σ : heap) :
  Get r n = Some h →
  Lookup (Some h) network host σ =
    match σ !! r with
    | None => Panic
    | Some m => Ret (match m !! n with
                     | Some v => v network host
                     | None => not_found
                     end)
    end.
Proof.
  unfold Get. case_decide; [|done]. intros [= <-].
  unfold Lookup, hostsWrapper_Lookup, get, registry_Get. simpl.
  destruct (σ !! r) as [m|]; [|done]. by destruct (m !! n).
Qed.

(** A registration that is accepted leaves the value under the name. *)
Lemma Register_accepted p r n v (σ σ' : heap) :
  Register p r n v σ = (σ', Ret None) →
  ∃ m, σ' !! r = Some m ∧ m !! n = Some v.
Proof.
  unfold Register, registry_Register.
  destruct (σ !! r) as [m|]; [|done].
  destruct p; [|destruct (m !! n)]; intros [= <-];
    eexists; (split; [apply lookup_insert_eq | apply lookup_insert_eq]).
Qed.

(** Under the rejecting policy the second registration of a name is
    refused and the first value stays. *)
Lemma Register_rejected r n A B (σ σ1 : heap) :
  Register RejectDuplicate r n A σ = (σ1, Ret None) →
  ∃ σ2, Register RejectDuplicate r n B σ1 = (σ2, Ret (Some ErrDuplicateName))
        ∧ ∀ h network host, Get r n = Some h →
            Lookup (Some h) network host σ2 = Ret (A network host).
Proof.
  intros H1. destruct (Register_accepted _ _ _ _ _ _ H1) as (m & Hr & Hn).
  unfold Register, registry_Register. rewrite Hr. rewrite Hn.
  eexists; split; [done|]. intros h network host Hh.
  rewrite (Lookup_resolves _ _ _ _ _ _ Hh), lookup_insert_eq. simpl.
  by rewrite Hn.
Qed.

(** C5. Late binding: once [Register(n, A)] and then [Register(n, B)] have
    been accepted, a handle that [Get(n)] returned, be it before or after
    the second registration, forwards its next [Lookup] to [B]; the handle
    taken before had forwarded to [A] until then. *)
Theorem late_binding p r n A B (σ0 σ1 σ2 : heap) h_before h_after :
  Register p r n A σ0 = (σ1, Ret None) →
  Get r n = Some h_before →
  Register p r n B σ1 = (σ2, Ret None) →
  Get r n = Some h_after →
  ∀ network host,
    Lookup (Some h_before) network host σ1 = Ret (A network host) ∧
    Lookup (Some h_before) network host σ2 = Ret (B network host) ∧
    Lookup (Some h_after) network host σ2 = Ret (B network host).
Proof.
  intros HA Hb HB Ha network host.
  destruct (Register_accepted _ _ _ _ _ _ HA) as (m1 & Hr1 & Hn1).
  destruct (Register_accepted _ _ _ _ _ _ HB) as (m2 & Hr2 & Hn2).
  rewrite !(Lookup_resolves _ _ _ _ _ _ Hb), (Lookup_resolves _ _ _ _ _ _ Ha).
  by rewrite Hr1, Hr2, Hn1, Hn2.
Qed.

Lemma late_binding_witness :
  Lookup (Get 0 "dns") "ip4" "example.com" heap1 = Ret ([[10; 0; 0; 1]], true) ∧
  Lookup (Get 0 "dns") "ip4" "example.com" heap2 = Ret ([[10; 0; 0; 2]], true).
Proof.
  destruct (late_binding Overwrite 0 "dns" mapper_A mapper_B heap0 heap1 heap2
              {| name := "dns"; r := 0 |} {| name := "dns"; r := 0 |}
              eq_refl eq_refl eq_refl eq_refl "ip4" "example.com")
    as (H1 & H2 & _).
  split; [exact H1 | exact H2].
Defined.

(** C6, as stated, fails for the empty name: [Get("")] is a nil interface
    and a [Lookup] on it panics instead of returning the zero result. *)
Lemma Get_empty_Lookup_panics :
  Get 0 "" = None ∧
  Lookup (Get 0 "") "ip4" "example.com" heap0 = Panic ∧
  Lookup (Get 0 "") "ip4" "example.com" heap0 ≠ Ret not_found.
Proof. split; [reflexivity|]. split; [reflexivity | discriminate]. Qed.

(** C6, amended. [Get("")] is nil: there is no handle to invoke.  [Get] of
    a non-empty name under which nothing is registered is a handle whose
    [Lookup] returns the zero result, a nil IP list and false, and does
    not panic. *)
Theorem Get_unregistered r n (σ : heap) m :
  σ !! r = Some m →
  Get r "" = None ∧
  (n ≠ "" → m !! n = None →
   ∃ h, Get r n = Some h ∧
        ∀ network host, Lookup (Get r n) network host σ = Ret ([], false)).
Proof.
  intros Hr. split; [done|]. intros Hn Hm.
  unfold Get. rewrite decide_True by done. eexists; split; [done|].
  intros network host.
  unfold Lookup, hostsWrapper_Lookup, get, registry_Get; simpl.
  by rewrite Hr, Hm.
Qed.

Lemma Get_unregistered_witness :
  Lookup (Get 0 "nowhere") "ip4" "example.com" heap1 = Ret ([], false).
Proof.
  destruct (Get_unregistered 0 "nowhere" heap1 {[ "dns" := mapper_A ]}
              eq_refl) as [_ H].
  destruct (H ltac:(discriminate) eq_refl) as (h & _ & Hl).
  exact (Hl "ip4" "example.com").
Defined.

End RegistryFacts.

(** * Properties of the address helpers *)

Module GoNetFacts.
Import GoNet.
Local Open Scope Z_scope.

Lemma IndexByteString_ge s c : -1 ≤ IndexByteString s c.
Proof.
  induction s as [|a s IH]; simpl; [lia|].
  destruct (Ascii.eqb a c); [lia|]. destruct (Z.ltb_spec (IndexByteString s c) 0); lia.
Qed.

Lemma IndexByteString_cons_none a s c :
  IndexByteString (String a s) c = -1 ↔ a ≠ c ∧ IndexByteString s c = -1.
Proof.
  simpl. pose proof (IndexByteString_ge s c).
  destruct (Ascii.eqb_spec a c) as [->|Hne].
  - split; [lia|]. by intros [[] _].
  - destruct (Z.ltb_spec (IndexByteString s c) 0); split; try lia.
    intros _. split; [done|lia].
Qed.

Lemma LastIndexByteString_none s c :
  IndexByteString s c = -1 → LastIndexByteString s c = -1.
Proof.
  induction s as [|a s IH]; [done|].
  intros [Hne Hs]%IndexByteString_cons_none. simpl. rewrite (IH Hs). simpl.
  by destruct (Ascii.eqb_spec a c).
Qed.

Lemma LastIndexByteString_app host port c :
  IndexByteString host c = -1 → IndexByteString port c = -1 →
  LastIndexByteString (host ++ String c port) c = len host.
Proof.
  intros Hh Hp. induction host as [|a host IH]; simpl.
  - rewrite (LastIndexByteString_none _ _ Hp). simpl. by rewrite Ascii.eqb_refl.
  - apply IndexByteString_cons_none in Hh as [Hne Hh]. rewrite (IH Hh).
    unfold len. simpl String.length.
    destruct (Z.leb_spec 0 (Z.of_nat (String.length host))); lia.
Qed.

Lemma IndexByteString_app_none a b c :
  IndexByteString a c = -1 → IndexByteString b c = -1 →
  IndexByteString (a ++ b) c = -1.
Proof.
  intros Ha Hb. induction a as [|x a IH]; [done|].
  apply IndexByteString_cons_none in Ha as [Hne Ha].
  change (String x a ++ b)%string with (String x (a ++ b)).
  apply IndexByteString_cons_none. auto.
Qed.

Lemma substring_all s : substring 0 (String.length s) s = s.
Proof. induction s as [|x s IH]; [done|]. simpl. by rewrite IH. Qed.

Lemma substring_prefix a b : substring 0 (String.length a) (a ++ b) = a.
Proof.
  induction a as [|x a IH]; simpl; [by destruct b|]. by rewrite IH.
Qed.

Lemma substring_suffix a b :
  substring (String.length a) (String.length b) (a ++ b) = b.
Proof. induction a as [|x a IH]; simpl; [apply substring_all|done]. Qed.

Lemma length_app (a b : string) :
  String.length (a ++ b) = (String.length a + String.length b)%nat.
Proof. induction a as [|x a IH]; [done|]. simpl. by rewrite IH. Qed.

(** On an address [host:port] without brackets, [SplitHostPort] cuts at
    the colon: the host comes back with the port stripped. *)
Lemma SplitHostPort_join host port :
  plain host → plain port →
  SplitHostPort (host ++ ":" ++ port) = (host, port, None).
Proof.
  intros (Hh1 & Hh2 & Hh3) (Hp1 & Hp2 & Hp3).
  change (host ++ ":" ++ port)%string with (host ++ String ":" port)%string.
  assert (Hplain : ∀ c, c ≠ ":"%char → IndexByteString host c = -1 →
            IndexByteString port c = -1 →
            IndexByteString (host ++ String ":" port) c = -1).
  { intros c Hc H1 H2. apply IndexByteString_app_none; [done|].
    apply IndexByteString_cons_none. split; [by intros <-|done]. }
  assert (Hbr : byte_at_is (host ++ String ":" port) 0 "[" = false).
  { unfold byte_at_is. destruct host as [|a host]; [done|]. simpl.
    apply IndexByteString_cons_none in Hh2 as [Hne _].
    by destruct (Ascii.eqb_spec a "[")%char. }
  unfold SplitHostPort.
  rewrite (LastIndexByteString_app _ _ _ Hh1 Hp1), Hbr. simpl.
  assert (Hlen : (len host <? 0) = false) by (apply Z.ltb_ge; unfold len; lia).
  rewrite Hlen.
  assert (Hs1 : slice (host ++ String ":" port) 0 (len host) = host).
  { unfold slice, len. rewrite Z.sub_0_r, Nat2Z.id. apply substring_prefix. }
  rewrite Hs1, Hh1. simpl.
  assert (Hs2 : slice (host ++ String ":" port) 0
                  (len (host ++ String ":" port)) = host ++ String ":" port).
  { unfold slice, len. rewrite Z.sub_0_r, Nat2Z.id. apply substring_all. }
  rewrite Hs2, !Hplain by done. simpl.
  do 2 f_equal. unfold slice, len. rewrite length_app. simpl.
  replace (Z.to_nat (Z.of_nat (String.length host) + 1))
    with (String.length (host ++ ":")) by (rewrite length_app; simpl; lia).
  replace (Z.to_nat _) with (String.length port) by lia.
  replace (host ++ String ":" port)%string with ((host ++ ":") ++ port)%string.
  - apply substring_suffix.
  - clear. induction host as [|x host IH]; [done|].
    change (String x ((host ++ ":") ++ port) = String x (host ++ String ":" port)).
    by rewrite IH.
Qed.
End GoNetFacts.

(** * Properties of the forward handler *)

Module ForwardFacts.
Import GoNet GoHTTP Forward Examples.
Local Open Scope list_scope.

Lemma add_events_nil w : add_events w [] = w.
Proof. destruct w; unfold add_events; simpl. by rewrite app_nil_r. Qed.

Lemma add_events_app w a b :
  add_events (add_events w a) b = add_events w (a ++ b).
Proof. unfold add_events; simpl. by rewrite app_assoc. Qed.

Lemma emit_run e w : emit e w = (add_events w [e], Ret ()).
Proof. reflexivity. Qed.

Lemma bind_run {A B} (m : M A) (k : A → M B) w :
  ((m ≫= k) : M B) w = match m w with
               | (w', Ret a) => k a w'
               | (w', Panic) => (w', Panic)
               end.
Proof. reflexivity. Qed.

Lemma ret_run {A} (a : A) w : (mret a : M A) w = (w, Ret a).
Proof. reflexivity. Qed.

Lemma defer_run {A} (d : M unit) (body : M A) w :
  defer d body w = ((d (body w).1).1, (body w).2).
Proof. unfold defer. by destruct (body w). Qed.

Ltac run := repeat (rewrite ?bind_run, ?emit_run, ?ret_run, ?defer_run,
                      ?add_events_app; simpl).

Ltac lnorm := repeat (progress (rewrite <- ?app_assoc; simpl)).

Lemma checkRateLimit_run h conn w :
  checkRateLimit h (RemoteAddr conn) w
  = (add_events w (limiter_events h conn), Ret (allowed h conn)).
Proof.
  unfold checkRateLimit, allowed, limiter_events, limiter_key.
  destruct (options_RateLimiter h) as [rl|]; [|by rewrite ret_run, add_events_nil].
  destruct (SplitHostPort (RemoteAddr conn)) as [[host port] err]; simpl.
  destruct (rl host); run; done.
Qed.

Lemma handleHTTP_run E src dst settings w :
  handleHTTP E src dst settings w =
    (add_events w
       [EvHandleHTTP (CopyBuffer (target_in dst)).1
          (rewriteTask (trace_enabled E) settings (ReadRequests E src)).1
          (normalize (received (first_result E) (CopyBuffer (target_in dst)).2
             (rewriteTask (trace_enabled E) settings (ReadRequests E src)).2))],
     Ret (normalize (received (first_result E) (CopyBuffer (target_in dst)).2
             (rewriteTask (trace_enabled E) settings (ReadRequests E src)).2))).
Proof.
  unfold handleHTTP.
  destruct (CopyBuffer (target_in dst)) as [to_client e1].
  destruct (rewriteTask _ _ _) as [evs e2]. by run.
Qed.

Lemma dial_fails h E conn network rw protocol target w err :
  router h network (Addr target) = inl err →
  dial_and_relay h E conn network rw protocol target w =
    ({| markers := set_marker target Dead (markers w);
        trace := trace w
          ++ [EvLog Debug (RemoteAddr conn ++ " >> " ++ Addr target)%string;
              EvDial network (Addr target); EvLogError err]
          ++ marker_events target EvMark |},
     Ret (Some err)).
Proof.
  intros Hr. unfold dial_and_relay, set_marker, marker_events. rewrite Hr.
  destruct (Marker target); run; unfold add_events; simpl;
    rewrite <- ?app_assoc; simpl; try done.
Qed.

Lemma dial_succeeds h E conn network rw protocol target w cc :
  router h network (Addr target) = inr cc →
  dial_and_relay h E conn network rw protocol target w =
    ({| markers := set_marker target Alive (markers w);
        trace := trace w
          ++ [EvLog Debug (RemoteAddr conn ++ " >> " ++ Addr target)%string;
              EvDial network (Addr target)]
          ++ marker_events target EvReset
          ++ [EvLog Debug (RemoteAddr conn ++ " <-> " ++ Addr target)%string;
              relay_event E rw protocol target cc;
              EvLog Debug (RemoteAddr conn ++ " >-< " ++ Addr target)%string;
              EvClose Target] |},
     Ret None).
Proof.
  intros Hr. unfold dial_and_relay, set_marker, marker_events, relay_event.
  rewrite Hr.
  destruct (Marker target), (String.eqb protocol ProtoHTTP),
    (Options_HTTP target);
    try destruct (Transport _ _ _) as [[to_target to_client] res];
    run; rewrite ?handleHTTP_run; run; unfold add_events; simpl;
    rewrite <- ?app_assoc; simpl; done.
Qed.

Local Arguments dial_and_relay : simpl never.

Lemma Handle_run h E conn w :
  Handle h E conn w =
    let w1 := add_events w (opening conn :: limiter_events h conn) in
    if negb (allowed h conn) then (add_events w1 (closing conn), Ret None)
    else
      let w2 := add_events w1 (sniff_events h E conn) in
      let '(rw, host, protocol) := sniffed h E conn in
      match hop h with
      | Some hp =>
          match hp (markers w) (with_port host) protocol with
          | None =>
              (add_events w2
                 ([EvSelect (with_port host) protocol;
                   EvLogError ErrTargetNotAvailable] ++ closing conn),
               Ret (Some ErrTargetNotAvailable))
          | Some target =>
              let '(w3, r) :=
                dial_and_relay h E conn (network_of conn) rw protocol target
                  (add_events w2 [EvSelect (with_port host) protocol]) in
              (add_events w3 (closing conn), r)
          end
      | None =>
          let '(w3, r) :=
            dial_and_relay h E conn (network_of conn) rw protocol
              {| Addr := with_port host; Marker := None;
                 Options_HTTP := None |} w2 in
          (add_events w3 (closing conn), r)
      end.
Proof.
  unfold Handle, sniff_events, sniffed, network_of, opening, closing.
  repeat (progress (rewrite ?defer_run, ?bind_run, ?emit_run, ?ret_run,
                      ?checkRateLimit_run; cbv beta iota)).
  destruct (allowed h conn); simpl; [|by run].
  assert (Hnet : ∀ b : bool, ((if b then "udp" else "tcp") =? "tcp")%string
                             = negb b) by (by intros []).
  rewrite Hnet.
  destruct (md_sniffing h && negb (isPacketConn conn));
    [destruct (Sniffing E conn) as [[rw host] protocol]|];
    (destruct (hop h) as [hp|];
     [repeat (progress (rewrite ?bind_run, ?emit_run, ?ret_run,
                          ?add_events_app; cbv beta iota));
      simpl markers; destruct (hp _ _ _) as [target|]|]);
    repeat (progress (rewrite ?bind_run, ?emit_run, ?ret_run,
                        ?add_events_app; cbv beta iota));
    rewrite ?add_events_app; simpl; rewrite <- ?app_assoc; simpl;
    rewrite ?app_nil_r;
    rewrite ?add_events_app; simpl; rewrite <- ?app_assoc; simpl;
    try done; by destruct (dial_and_relay _ _ _ _ _ _ _ _).
Qed.

(** ** Dial attempts of the pieces of a trace *)

Lemma dials_app a b : dials (a ++ b) = dials a ++ dials b.
Proof. apply omap_app. Qed.

Lemma dials_cons e l : dials (e :: l) = dials [e] ++ dials l.
Proof. apply (dials_app [e] l). Qed.

Lemma dials_limiter h conn : dials (limiter_events h conn) = [].
Proof.
  unfold limiter_events. destruct (options_RateLimiter h) as [rl|]; [|done].
  by destruct (rl _).
Qed.

Lemma dials_sniff h E conn : dials (sniff_events h E conn) = [].
Proof. unfold sniff_events. by destruct (_ && _). Qed.

Lemma dials_marker target ev :
  (∀ m network address, ev m ≠ EvDial network address) →
  dials (marker_events target ev) = [].
Proof.
  intros Hev. unfold marker_events. destruct (Marker target) as [m|]; [|done].
  unfold dials; simpl. destruct (ev m) eqn:He; try done.
  by destruct (Hev _ _ _ He).
Qed.

Lemma dials_relay_event E rw protocol target cc :
  dials [relay_event E rw protocol target cc] = [].
Proof.
  unfold relay_event.
  by destruct (String.eqb protocol ProtoHTTP), (Options_HTTP target).
Qed.

Lemma is_relay_relay_event E rw protocol target cc :
  is_relay (relay_event E rw protocol target cc) = true.
Proof.
  unfold relay_event.
  by destruct (String.eqb protocol ProtoHTTP), (Options_HTTP target).
Qed.

(** What [dial_and_relay] does, in one statement. *)
Lemma dial_and_relay_run h E conn network rw protocol target w :
  ∃ evs,
    dials evs = [(network, Addr target)] ∧
    match router h network (Addr target) with
    | inl err =>
        dial_and_relay h E conn network rw protocol target w =
          ({| markers := set_marker target Dead (markers w);
              trace := trace w ++ evs |}, Ret (Some err)) ∧
        Forall (λ e, is_relay e = false) evs
    | inr cc =>
        dial_and_relay h E conn network rw protocol target w =
          ({| markers := set_marker target Alive (markers w);
              trace := trace w ++ evs |}, Ret None) ∧
        ∃ pre post,
          evs = pre ++ marker_events target EvReset ++ post ∧
          Forall (λ e, is_relay e = false) pre ∧
          relay_event E rw protocol target cc ∈ post
    end.
Proof.
  destruct (router h network (Addr target)) as [err|cc] eqn:Hr.
  - eexists; split; [|split; [by apply dial_fails|]].
    + rewrite dials_app, dials_marker by done. done.
    + apply Forall_app; split; [by repeat constructor|].
      unfold marker_events. destruct (Marker target); by repeat constructor.
  - eexists; split; [|split; [by apply dial_succeeds|]].
    + rewrite !dials_app, dials_marker by done. simpl.
      f_equal. exact (dials_relay_event E rw protocol target cc).
    + eexists _, _; split; [done|]. split; [by repeat constructor|].
      set_solver.
Qed.

Lemma not_relay_limiter h conn :
  Forall (λ e, is_relay e = false) (limiter_events h conn).
Proof.
  unfold limiter_events. destruct (options_RateLimiter h) as [rl|];
    [destruct (rl _)|]; by repeat constructor.
Qed.

Lemma not_relay_sniff h E conn :
  Forall (λ e, is_relay e = false) (sniff_events h E conn).
Proof. unfold sniff_events. destruct (_ && _); by repeat constructor. Qed.

(** Every session, by cases on the admission, the resolution and the
    dial. *)
Lemma Handle_cases h E conn w :
  ∃ evs ms' r,
    Handle h E conn w = ({| markers := ms'; trace := trace w ++ evs |}, r) ∧
    if negb (allowed h conn) then
      r = Ret None ∧ ms' = markers w ∧
      evs = opening conn :: limiter_events h conn ++ closing conn
    else
      match resolved h E conn (markers w) with
      | None =>
          r = Ret (Some ErrTargetNotAvailable) ∧ ms' = markers w ∧
          dials evs = [] ∧ EvLogError ErrTargetNotAvailable ∈ evs
      | Some target =>
          dials evs = [(network_of conn, Addr target)] ∧
          match router h (network_of conn) (Addr target) with
          | inl err =>
              r = Ret (Some err) ∧
              ms' = set_marker target Dead (markers w) ∧
              Forall (λ e, is_relay e = false) evs
          | inr cc =>
              r = Ret None ∧
              ms' = set_marker target Alive (markers w) ∧
              ∃ pre post,
                evs = pre ++ marker_events target EvReset ++ post ∧
                Forall (λ e, is_relay e = false) pre ∧
                relay_event E (sniffed h E conn).1.1 (sniffed h E conn).2
                  target cc ∈ post
          end
      end.
Proof.
  rewrite Handle_run. unfold resolved. cbv zeta.
  destruct (allowed h conn); simpl.
  2: { eexists _, _, _; split; [|done]. unfold add_events; simpl.
       by rewrite <- app_assoc. }
  destruct (sniffed h E conn) as [[rw host] protocol]; simpl.
  set (pre0 := opening conn :: limiter_events h conn ++ sniff_events h E conn).
  assert (Hpre0 : dials pre0 = []).
  { unfold pre0, opening. rewrite dials_cons, dials_app, dials_limiter,
      dials_sniff. done. }
  assert (Hrel0 : Forall (λ e, is_relay e = false) pre0).
  { unfold pre0. constructor; [done|]. apply Forall_app; split;
      [apply not_relay_limiter | apply not_relay_sniff]. }
  assert (Hw : ∀ more, add_events (add_events w (opening conn :: limiter_events h conn))
                  (sniff_events h E conn ++ more)
                = add_events w (pre0 ++ more)).
  { intros more. rewrite add_events_app. unfold pre0. simpl.
    by rewrite <- app_assoc. }
  assert (Hsel : ∀ target sel w0,
    trace w0 = trace w ++ pre0 ++ sel → markers w0 = markers w →
    dials sel = [] → Forall (λ e, is_relay e = false) sel →
    ∃ evs ms' r,
      (let '(w3, r) := dial_and_relay h E conn (network_of conn) rw protocol
                         target w0 in (add_events w3 (closing conn), r))
      = ({| markers := ms'; trace := trace w ++ evs |}, r) ∧
      dials evs = [(network_of conn, Addr target)] ∧
      match router h (network_of conn) (Addr target) with
      | inl err =>
          r = Ret (Some err) ∧
          ms' = set_marker target Dead (markers w) ∧
          Forall (λ e, is_relay e = false) evs
      | inr cc =>
          r = Ret None ∧
          ms' = set_marker target Alive (markers w) ∧
          ∃ pre post,
            evs = pre ++ marker_events target EvReset ++ post ∧
            Forall (λ e, is_relay e = false) pre ∧
            relay_event E rw protocol target cc ∈ post
      end).
  { intros target sel w0 Htr Hms Hdsel Hrsel.
    destruct (dial_and_relay_run h E conn (network_of conn) rw protocol
                target w0) as (evs & Hd & Hrun).
    exists (pre0 ++ sel ++ evs ++ closing conn).
    destruct (router h (network_of conn) (Addr target)) as [err|cc].
    - destruct Hrun as [-> Hnr]. eexists _, _; split; [|split; [|split; [done|split]]].
      + unfold add_events; simpl. rewrite Htr. unfold pre0. by lnorm.
      + rewrite !dials_app, Hpre0, Hdsel, Hd. done.
      + by rewrite Hms.
      + repeat (apply Forall_app; split); try done. by repeat constructor.
    - destruct Hrun as [-> (pre & post & Hevs & Hnr & Hin)].
      eexists _, _; split; [|split; [|split; [done|split]]].
      + unfold add_events; simpl. rewrite Htr. unfold pre0. by lnorm.
      + rewrite !dials_app, Hpre0, Hdsel, Hd. done.
      + by rewrite Hms.
      + exists (pre0 ++ sel ++ pre), (post ++ closing conn).
        split; [rewrite Hevs; by rewrite <- !app_assoc|]. split; [|set_solver].
        repeat (apply Forall_app; split); done. }
  destruct (hop h) as [hp|].
  - destruct (hp (markers w) (with_port host) protocol) as [target|].
    + apply (Hsel target [EvSelect (with_port host) protocol]);
        [|done|done|by repeat constructor].
      rewrite add_events_app. unfold add_events, pre0; simpl.
      by rewrite <- !app_assoc.
    + eexists _, _, _; split; [|split; [done|split; [done|split]]].
      * unfold add_events; simpl. by lnorm.
      * rewrite dials_cons, !dials_app, dials_limiter, dials_sniff. done.
      * rewrite elem_of_cons, !elem_of_app, !elem_of_cons. tauto.
  - apply (Hsel _ []); [|done|done|done].
    rewrite add_events_app. unfold add_events, pre0; simpl.
    by rewrite <- !app_assoc, app_nil_r.
Qed.

(** C7. A session whose key the rate limiter denies ends at once: [Handle]
    returns nil and no dial is attempted, the trace holds nothing but the
    two log lines, the admission check and the close.  The key is the host
    that [net.SplitHostPort] cuts from the remote address, that is the host
    with the port stripped.  Without a rate limiter, or without a limiter
    for the key, the check grants. *)
Theorem rate_limit_admission h E conn w :
  (∀ rl limiter,
      options_RateLimiter h = Some rl →
      rl (limiter_key conn) = Some limiter →
      limiter 1%Z = false →
      let evs := [opening conn; EvLimiter (limiter_key conn);
                  EvAllow (limiter_key conn) 1 false] ++ closing conn in
      Handle h E conn w = (add_events w evs, Ret None) ∧ dials evs = []) ∧
  (∀ host port,
      plain host → plain port → RemoteAddr conn = (host ++ ":" ++ port)%string →
      limiter_key conn = host) ∧
  (options_RateLimiter h = None →
      checkRateLimit h (RemoteAddr conn) w = (w, Ret true)) ∧
  (∀ rl, options_RateLimiter h = Some rl →
      rl (limiter_key conn) = None →
      (checkRateLimit h (RemoteAddr conn) w).2 = Ret true).
Proof.
  split; [|split; [|split]].
  - intros rl limiter Hrl Hl Hdeny evs. split; [|done].
    rewrite Handle_run. cbv zeta.
    unfold allowed, limiter_events. rewrite Hrl, Hl, Hdeny.
    simpl. by rewrite add_events_app.
  - intros host port Hh Hp Haddr. unfold limiter_key.
    by rewrite Haddr, GoNetFacts.SplitHostPort_join.
  - intros Hrl. rewrite checkRateLimit_run.
    unfold allowed, limiter_events. rewrite Hrl. by rewrite add_events_nil.
  - intros rl Hrl Hl. rewrite checkRateLimit_run.
    unfold allowed. by rewrite Hrl, Hl.
Qed.

Lemma rate_limit_admission_witness :
  Handle handler_limited env0 client0 world0
  = (add_events world0
       ([opening client0; EvLimiter "10.0.0.1"; EvAllow "10.0.0.1" 1 false]
        ++ closing client0), Ret None) ∧
  limiter_key client0 = "10.0.0.1" ∧
  checkRateLimit handler0 (RemoteAddr client0) world0 = (world0, Ret true) ∧
  (checkRateLimit handler_limited (RemoteAddr client1) world0).2 = Ret true.
Proof.
  destruct (rate_limit_admission handler_limited env0 client0 world0)
    as (Hdeny & Hkey & _ & _).
  destruct (rate_limit_admission handler0 env0 client0 world0)
    as (_ & _ & Hnone & _).
  destruct (rate_limit_admission handler_limited env0 client1 world0)
    as (_ & _ & _ & Hnokey).
  split; [exact (proj1 (Hdeny limiter0 (λ _, false) eq_refl eq_refl eq_refl))|].
  split; [exact (Hkey "10.0.0.1" "5000" ltac:(by vm_compute)
                   ltac:(by vm_compute) eq_refl)|].
  split; [exact (Hnone eq_refl) | exact (Hnokey limiter0 eq_refl eq_refl)].
Defined.

(** C9. With a hop attached, a session that is admitted and whose
    [Select] finds no candidate returns the error "target not available"
    and dials nothing. *)
Theorem select_none_is_fatal h E conn w hp :
  hop h = Some hp →
  allowed h conn = true →
  hp (markers w) (with_port (sniffed h E conn).1.2) (sniffed h E conn).2 = None →
  ∃ evs,
    Handle h E conn w
      = (add_events w evs, Ret (Some (errors_New "target not available"))) ∧
    dials evs = [] ∧
    EvSelect (with_port (sniffed h E conn).1.2) (sniffed h E conn).2 ∈ evs.
Proof.
  intros Hhop Hok Hsel. rewrite Handle_run. cbv zeta. rewrite Hok. simpl.
  destruct (sniffed h E conn) as [[rw host] protocol]. simpl in *.
  rewrite Hhop, Hsel.
  eexists; split; [unfold add_events; simpl; by lnorm|]. split.
  - rewrite dials_cons, !dials_app, dials_limiter, dials_sniff. done.
  - rewrite elem_of_cons, !elem_of_app, !elem_of_cons. tauto.
Qed.

Lemma select_none_is_fatal_witness :
  ∃ evs,
    Handle handler_empty_hop env0 client0 world0
      = (add_events world0 evs, Ret (Some (errors_New "target not available"))) ∧
    dials evs = [] ∧ EvSelect ":0" "" ∈ evs.
Proof.
  exact (select_none_is_fatal handler_empty_hop env0 client0 world0
           (λ _ _ _, None) eq_refl eq_refl eq_refl).
Defined.

Lemma set_marker_lookup target st ms m :
  Marker target = Some m → set_marker target st ms !! m = Some st.
Proof. intros Hm. unfold set_marker. rewrite Hm. apply lookup_insert_eq. Qed.

(** C8. Every session dials at most once.  For a session that is admitted
    and resolves a node, there is exactly one dial, to that node's
    address: when it fails, the node's marker is marked dead, [Handle]
    returns the dial error and nothing is relayed; when it succeeds, the
    marker is reset to alive, and the reset comes in the trace before the
    relay. *)
Theorem single_dial h E conn w :
  ∃ evs ms' r,
    Handle h E conn w = ({| markers := ms'; trace := trace w ++ evs |}, r) ∧
    (List.length (dials evs) ≤ 1)%nat ∧
    ∀ target,
      allowed h conn = true →
      resolved h E conn (markers w) = Some target →
      dials evs = [(network_of conn, Addr target)] ∧
      match router h (network_of conn) (Addr target) with
      | inl err =>
          r = Ret (Some err) ∧
          Forall (λ e, is_relay e = false) evs ∧
          ∀ m, Marker target = Some m → ms' !! m = Some Dead
      | inr cc =>
          r = Ret None ∧
          ∀ m, Marker target = Some m →
            ms' !! m = Some Alive ∧
            ∃ pre post,
              evs = pre ++ EvReset m :: post ∧
              Forall (λ e, is_relay e = false) pre ∧
              Exists (λ e, is_relay e = true) post
      end.
Proof.
  destruct (Handle_cases h E conn w) as (evs & ms' & r & Hrun & Hcases).
  exists evs, ms', r. split; [done|].
  destruct (allowed h conn); simpl in Hcases.
  2: { destruct Hcases as (-> & -> & ->). split; [|done].
       rewrite dials_cons, dials_app, dials_limiter. simpl. lia. }
  destruct (resolved h E conn (markers w)) as [target|].
  2: { destruct Hcases as (-> & -> & -> & _). split; [simpl; lia|done]. }
  destruct Hcases as [Hd Hcases]. split; [rewrite Hd; simpl; lia|].
  intros ? _ [= <-]. split; [done|].
  destruct (router h (network_of conn) (Addr target)) as [err|cc].
  - destruct Hcases as (-> & -> & Hnr). split; [done|]. split; [done|].
    intros m Hm. by apply set_marker_lookup.
  - destruct Hcases as (-> & -> & pre & post & -> & Hnr & Hin).
    split; [done|]. intros m Hm. split; [by apply set_marker_lookup|].
    exists pre, post. unfold marker_events. rewrite Hm. split; [done|].
    split; [done|]. apply Exists_exists. eexists; split; [done|].
    apply is_relay_relay_event.
Qed.

Lemma single_dial_witness :
  ∃ evs ms' r,
    Handle handler_hop env0 client0 world0
      = ({| markers := ms'; trace := trace world0 ++ evs |}, r) ∧
    dials evs = [("tcp", "192.0.2.7:80")] ∧ r = Ret None ∧
    ms' !! 4 = Some Alive.
Proof.
  destruct (single_dial handler_hop env0 client0 world0)
    as (evs & ms' & r & Hrun & _ & Hcase).
  destruct (Hcase node0 eq_refl eq_refl) as [Hd [Hr Hm]].
  exists evs, ms', r. split; [exact Hrun|]. split; [exact Hd|].
  split; [exact Hr | exact (proj1 (Hm 4 eq_refl))].
Defined.

(** A call of [Mark] or [Reset] on a nil marker, without the guard. *)
Lemma unguarded_marker_panics w :
  Marker_Mark None w = (w, Panic) ∧ Marker_Reset None w = (w, Panic).
Proof. done. Qed.

(** C10. In direct-forward mode the node the session builds has the
    address alone and no marker, and the session does not panic: the
    marker is tested for nil before [Mark] and before [Reset], so [Handle]
    returns and leaves every marker as it was.  The same holds from the
    dial on for any node without a marker, whether the dial fails or
    succeeds. *)
Theorem direct_mode_no_marker h E conn w :
  hop h = None →
  resolved h E conn (markers w)
    = Some {| Addr := with_port (sniffed h E conn).1.2; Marker := None;
              Options_HTTP := None |} ∧
  (∃ r, (Handle h E conn w).2 = Ret r) ∧
  markers (Handle h E conn w).1 = markers w ∧
  ∀ network rw protocol target w0,
    Marker target = None →
    (∃ r, (dial_and_relay h E conn network rw protocol target w0).2 = Ret r) ∧
    markers (dial_and_relay h E conn network rw protocol target w0).1
      = markers w0.
Proof.
  intros Hhop.
  assert (Hres : resolved h E conn (markers w)
    = Some {| Addr := with_port (sniffed h E conn).1.2; Marker := None;
              Options_HTTP := None |}).
  { unfold resolved. destruct (sniffed h E conn) as [[rw host] protocol].
    by rewrite Hhop. }
  split; [done|].
  destruct (Handle_cases h E conn w) as (evs & ms' & r & Hrun & Hcases).
  rewrite Hrun, Hres in *. simpl.
  assert (r ≠ Panic ∧ ms' = markers w) as [Hr ->].
  { destruct (allowed h conn); simpl in Hcases.
    - destruct Hcases as [_ Hcases]. simpl in Hcases.
      destruct (router h _ _); by destruct Hcases as (-> & -> & _).
    - by destruct Hcases as (-> & -> & _). }
  split; [destruct r; [by eexists|done]|]. split; [done|].
  intros network rw protocol target w0 Hm.
  destruct (router h network (Addr target)) as [err|cc] eqn:Hrt.
  - rewrite (dial_fails _ _ _ _ _ _ _ _ _ Hrt). unfold set_marker.
    rewrite Hm. split; [by eexists|done].
  - rewrite (dial_succeeds _ _ _ _ _ _ _ _ _ Hrt). unfold set_marker.
    rewrite Hm. split; [by eexists|done].
Qed.

Lemma direct_mode_no_marker_witness :
  (∃ r, (Handle handler0 env0 client0 world0).2 = Ret r) ∧
  markers (Handle handler0 env0 client0 world0).1 = markers world0.
Proof.
  destruct (direct_mode_no_marker handler0 env0 client0 world0 eq_refl)
    as (_ & Hret & Hms & _).
  split; [exact Hret | exact Hms].
Defined.

(** C1, amended. Once the dial has succeeded, [Handle] returns nil whatever
    the relay reports, a fault other than end-of-stream included: the
    result of the transport is dropped.  [handleHTTP] itself returns the
    first result received from its two tasks, with nil and [io.EOF]
    turned into nil and any other error returned as it is. *)
Theorem relay_result_is_dropped h E conn w target cc :
  allowed h conn = true →
  resolved h E conn (markers w) = Some target →
  router h (network_of conn) (Addr target) = inr cc →
  (Handle h E conn w).2 = Ret None ∧
  relay_event E (sniffed h E conn).1.1 (sniffed h E conn).2 target cc
    ∈ trace (Handle h E conn w).1 ∧
  ∀ src settings w0,
    (handleHTTP E src cc settings w0).2
    = Ret match received (first_result E) (CopyBuffer (target_in cc)).2
                  (rewriteTask (trace_enabled E) settings
                     (ReadRequests E src)).2 with
          | Some e => if decide (e = io_EOF) then None else Some e
          | None => None
          end.
Proof.
  intros Hok Hres Hrt.
  destruct (Handle_cases h E conn w) as (evs & ms' & r & Hrun & Hcases).
  rewrite Hok, Hres, Hrt in Hcases. simpl in Hcases.
  destruct Hcases as (_ & -> & _ & pre & post & -> & _ & Hin).
  rewrite Hrun. simpl. split; [done|]. split.
  - rewrite !elem_of_app. tauto.
  - intros src settings w0. rewrite handleHTTP_run. simpl. f_equal.
    unfold normalize. destruct (received _ _ _) as [e|]; [|done].
    by repeat case_decide.
Qed.

Lemma relay_result_is_dropped_witness :
  (Handle handler0 env0 client0 world0).2 = Ret None.
Proof.
  exact (proj1 (relay_result_is_dropped handler0 env0 client0 world0
                  {| Addr := ":0"; Marker := None; Options_HTTP := None |}
                  target0 eq_refl eq_refl eq_refl)).
Defined.

(** C1, as stated, fails on both relay paths.  Plain: the target resets
    the connection, the transport reports that fault, and [Handle] returns
    nil.  HTTP-aware: the client stream does not parse, [handleHTTP]
    returns that error, and [Handle] returns nil. *)
Lemma relay_fault_not_returned :
  ((Transport (schedule env0) (conn_in client0) (target_in target0)).2
     = Some (net_Error "connection reset by peer") ∧
   EvTransport [Byte.x01] [Byte.x03] (Some (net_Error "connection reset by peer"))
     ∈ trace (Handle handler0 env0 client0 world0).1 ∧
   (Handle handler0 env0 client0 world0).2 = Ret None ∧
   (Handle handler0 env0 client0 world0).2
     ≠ Ret (Some (net_Error "connection reset by peer"))) ∧
  ((handleHTTP env_http (conn_in client0) target0 settings_fwd world0).2
     = Ret (Some (net_Error "malformed HTTP request")) ∧
   EvHandleHTTP [Byte.x03]
     [EvReadRequest (inl (net_Error "malformed HTTP request"))]
     (Some (net_Error "malformed HTTP request"))
     ∈ trace (Handle handler_http env_http client0 world0).1 ∧
   (Handle handler_http env_http client0 world0).2 = Ret None ∧
   (Handle handler_http env_http client0 world0).2
     ≠ Ret (Some (net_Error "malformed HTTP request"))).
Proof.
  split.
  - split; [reflexivity|]. split; [|split; [reflexivity|discriminate]].
    set (t := trace _). vm_compute in t. subst t.
    rewrite !elem_of_cons. tauto.
  - split; [reflexivity|]. split; [|split; [reflexivity|discriminate]].
    set (t := trace _). vm_compute in t. subst t.
    rewrite !elem_of_cons. tauto.
Qed.

(** C2, as stated, fails: with sniffing off and no hop, two connections
    that share no address are both dialled at [":0"], which is an address
    of neither. *)
Lemma direct_dial_ignores_connection :
  dials (trace (Handle handler0 env0 client0 world0).1) = [("tcp", ":0")] ∧
  dials (trace (Handle handler0 env0 client1 world0).1) = [("tcp", ":0")] ∧
  LocalAddr client0 ≠ LocalAddr client1 ∧
  RemoteAddr client0 ≠ RemoteAddr client1 ∧
  LocalAddr client0 ≠ ":0" ∧ RemoteAddr client0 ≠ ":0".
Proof. repeat split; try reflexivity; discriminate. Qed.

Lemma Transport_prefix s client target to_target to_client res :
  Transport s client target = (to_target, to_client, res) →
  to_target `prefix_of` data client ∧ to_client `prefix_of` data target ∧
  (first_done s = Client →
     to_target = data client ∧ res = normalize (CopyBuffer client).2) ∧
  (first_done s = Target →
     to_client = data target ∧ res = normalize (CopyBuffer target).2).
Proof.
  unfold Transport, CopyBuffer. destruct (first_done s); intros [= <- <- <-];
    (split; [|split; [|split]]); try done;
    eexists; symmetry; apply take_drop.
Qed.

(** C2, amended. A stream session with sniffing off and no hop, once
    admitted, dials the placeholder address [":0"] on tcp, whatever the
    connection.  When that dial succeeds, the accepted connection itself
    and the dialled one are handed to the plain transport: what reaches
    the target is a prefix of what the client sent, what reaches the
    client a prefix of what the target sent, bytes unchanged and in order,
    all of them for the direction that ended the relay; [Handle] then
    returns nil.  When the dial fails, [Handle] returns the dial error. *)
Theorem direct_plain_session h E conn w :
  md_sniffing h = false →
  hop h = None →
  isPacketConn conn = false →
  allowed h conn = true →
  ∃ evs ms' r,
    Handle h E conn w = ({| markers := ms'; trace := trace w ++ evs |}, r) ∧
    dials evs = [("tcp", ":0")] ∧
    match router h "tcp" ":0" with
    | inl err => r = Ret (Some err)
    | inr cc =>
        r = Ret None ∧
        ∃ to_target to_client res,
          Transport (schedule E) (conn_in conn) (target_in cc)
            = (to_target, to_client, res) ∧
          EvTransport to_target to_client res ∈ evs ∧
          to_target `prefix_of` data (conn_in conn) ∧
          to_client `prefix_of` data (target_in cc) ∧
          (first_done (schedule E) = Client → to_target = data (conn_in conn)) ∧
          (first_done (schedule E) = Target → to_client = data (target_in cc))
    end.
Proof.
  intros Hsniff Hhop Hstream Hok.
  destruct (Handle_cases h E conn w) as (evs & ms' & r & Hrun & Hcases).
  exists evs, ms', r. split; [done|].
  rewrite Hok in Hcases. simpl in Hcases.
  unfold resolved, sniffed, network_of in Hcases.
  rewrite Hsniff, Hhop, Hstream in Hcases. simpl in Hcases.
  change (with_port "") with ":0" in Hcases.
  destruct Hcases as [Hd Hcases]. split; [done|].
  destruct (router h "tcp" ":0") as [err|cc]; [by destruct Hcases|].
  destruct Hcases as (-> & _ & pre & post & -> & _ & Hin). split; [done|].
  unfold relay_event in Hin. simpl in Hin.
  destruct (Transport (schedule E) (conn_in conn) (target_in cc))
    as [[to_target to_client] res] eqn:Ht.
  destruct (Transport_prefix _ _ _ _ _ _ Ht) as (H1 & H2 & H3 & H4).
  exists to_target, to_client, res. split; [done|]. split.
  - rewrite elem_of_app. by right.
  - split; [done|]. split; [done|]. split; intros Hf;
      [by destruct (H3 Hf) | by destruct (H4 Hf)].
Qed.

Lemma direct_plain_session_witness :
  ∃ evs ms' r,
    Handle handler0 env0 client0 world0
      = ({| markers := ms'; trace := trace world0 ++ evs |}, r) ∧
    dials evs = [("tcp", ":0")] ∧ r = Ret None.
Proof.
  destruct (direct_plain_session handler0 env0 client0 world0
              eq_refl eq_refl eq_refl eq_refl)
    as (evs & ms' & r & Hrun & Hd & Hr & _).
  exists evs, ms', r. split; [exact Hrun|]. split; [exact Hd | exact Hr].
Defined.

(** ** The overrides of [handleHTTP] *)

Lemma apply_headers_fields order req :
  Method (apply_headers order req) = Method req ∧
  RequestURI (apply_headers order req) = RequestURI req ∧
  Proto (apply_headers order req) = Proto req ∧
  Body (apply_headers order req) = Body req ∧
  Host (apply_headers order req) = Host req.
Proof.
  revert req. induction order as [|[k v] order IH]; intros req; [done|].
  simpl. destruct (IH (set_Header k v req)) as (-> & -> & -> & -> & ->).
  done.
Qed.


Lemma apply_headers_lookup order req c :
  Header_ (apply_headers order req) !! c =
    match last (set_under c order) with
    | Some v => Some [v]
    | None => Header_ req !! c
    end.
Proof.
  revert req. induction order as [|[k v] order IH] using rev_ind;
    intros req; [done|].
  unfold apply_headers, set_under in *. rewrite foldl_app, omap_app. simpl.
  unfold Header_Set. case_decide as Hc.
  - rewrite last_snoc. subst c. apply lookup_insert_eq.
  - rewrite app_nil_r, lookup_insert_ne by done. apply IH.
Qed.

Lemma rewriteRequest_unfold settings order req :
  rewriteRequest settings order req =
    apply_headers order
      (if decide (settings_Host settings ≠ "")
       then set_Host (settings_Host settings) req else req).
Proof. done. Qed.

Lemma set_under_elem c order v :
  v ∈ set_under c order ↔
  ∃ k, (k, v) ∈ order ∧ CanonicalMIMEHeaderKey k = c.
Proof.
  unfold set_under. rewrite list_elem_of_omap. split.
  - intros ([k v'] & Hin & Hv). simpl in Hv. case_decide; [|done].
    injection Hv as ->. by exists k.
  - intros (k & Hin & Hc). exists (k, v). split; [done|]. simpl.
    by rewrite decide_True.
Qed.




(** ** The websocket switch *)

Lemma rewriteTask_reaches tr settings s evs s' :
  loop_reaches tr settings s evs s' →
  rewriteTask tr settings s
  = (evs ++ (rewriteTask tr settings s').1, (rewriteTask tr settings s').2).
Proof.
  induction 1 as [s|req env next evs s' Hw Hup _ IH].
  - by destruct (rewriteTask tr settings s).
  - simpl. rewrite Hw, decide_False, IH by done. simpl.
    by rewrite <- app_assoc.
Qed.

(** C3, as stated, fails: the settings overwrite the Upgrade header, the
    request that came in with [Upgrade: websocket] goes out without it,
    and the task parses the next request instead of copying raw bytes. *)
Lemma upgrade_overwritten_keeps_parsing :
  Header_Get "Upgrade" (Header_ request_ws) = "websocket" ∧
  rewriteTask false settings_h2c (script_ws [("Upgrade", "h2c")])
  = ([EvReadRequest (inr request_ws);
      EvWrite (rewriteRequest settings_h2c [("Upgrade", "h2c")] request_ws)
        None;
      EvReadRequest (inr request_next);
      EvWrite (rewriteRequest settings_h2c [("Upgrade", "h2c")] request_next)
        None;
      EvReadRequest (inl io_EOF)],
     io_EOF).
Proof. split; vm_compute; reflexivity. Qed.

(** C3, amended. When the loop of the rewrite task gets to a request that,
    once the overrides are applied, carries [Upgrade: websocket] and whose
    write to the target succeeds, the task writes that request once, makes
    one raw copy and leaves the loop when that copy ends: whatever could be
    parsed after the request is not read as HTTP.  Which bytes the copy
    carries is not stated.  A parsed request that carries
    [Upgrade: websocket] is such a request when no configured header is
    named Upgrade. *)
Theorem websocket_switch tr settings s evs req env next :
  loop_reaches tr settings s evs (ReadOk req env next) →
  write_result env = None →
  let req' := rewriteRequest settings (range_order env) req in
  (Header_Get "Upgrade" (Header_ req') = "websocket" →
   ∃ bytes err,
     rewriteTask tr settings s
     = (evs ++ EvReadRequest (inr req) :: (if tr then [EvDump req'] else [])
            ++ [EvWrite req' None; EvRawCopy bytes],
        err)) ∧
  (Header_Get "Upgrade" (Header_ req) = "websocket" →
   (∀ k v, (k, v) ∈ range_order env → CanonicalMIMEHeaderKey k ≠ "Upgrade") →
   Header_Get "Upgrade" (Header_ req') = "websocket").
Proof.
  intros Hreach Hw req'. split.
  - intros Hup. rewrite (rewriteTask_reaches _ _ _ _ _ Hreach). simpl.
    fold req'. rewrite Hw, decide_True by done.
    destruct (CopyBuffer (unbuffered env)) as [bytes cerr]. simpl.
    by eexists _, _.
  - intros Hup Hnone. unfold Header_Get, req' in *.
    rewrite rewriteRequest_unfold, apply_headers_lookup.
    destruct (last _) as [v|] eqn:Hlast.
    + apply last_Some_elem_of, set_under_elem in Hlast as (k & Hk & Hc).
      by destruct (Hnone k v).
    + by case_decide.
Qed.

Lemma websocket_switch_witness :
  ∃ bytes err,
    rewriteTask false settings_fwd (script_ws [("X-Forwarded", "1")])
    = ([EvReadRequest (inr request_ws);
        EvWrite (rewriteRequest settings_fwd [("X-Forwarded", "1")] request_ws)
          None;
        EvRawCopy bytes],
       err).
Proof.
  destruct (websocket_switch false settings_fwd
              (script_ws [("X-Forwarded", "1")]) [] request_ws
              (reqenv [("X-Forwarded", "1")])
              (ReadOk request_next (reqenv [("X-Forwarded", "1")])
                 (ReadFails io_EOF))
              (reaches_here _ _ _) eq_refl) as [Hswitch Hcarry].
  apply Hswitch, Hcarry; [reflexivity|].
  intros k v Hin. apply list_elem_of_singleton in Hin. injection Hin as -> ->.
  discriminate.
Defined.

End ForwardFacts.

(** * Properties of the address normal form *)

Module AddressFacts.
Import GoNet GoNetFacts Forward Session Examples.
Local Open Scope Z_scope.

Lemma IndexByteString_first a b c :
  IndexByteString a c = -1 →
  IndexByteString (a ++ String c b) c = len a.
Proof.
  intros Ha. induction a as [|x a IH].
  - simpl. by rewrite Ascii.eqb_refl.
  - apply IndexByteString_cons_none in Ha as [Hne Ha].
    change (String x a ++ String c b)%string with (String x (a ++ String c b)).
    simpl. rewrite (IH Ha). destruct (Ascii.eqb_spec x c); [done|].
    unfold len. simpl String.length.
    destruct (Z.ltb_spec (Z.of_nat (String.length a)) 0); lia.
Qed.

Lemma LastIndexByteString_cons_other x s c :
  x ≠ c → 0 ≤ LastIndexByteString s c →
  LastIndexByteString (String x s) c = LastIndexByteString s c + 1.
Proof.
  intros _ H. simpl. destruct (Z.leb_spec 0 (LastIndexByteString s c)); lia.
Qed.

Lemma LastIndexByteString_skip a s c :
  0 ≤ LastIndexByteString s c →
  LastIndexByteString (a ++ s) c = len a + LastIndexByteString s c.
Proof.
  intros H. induction a as [|x a IH];
    [change (LastIndexByteString s c = 0 + LastIndexByteString s c); lia|].
  change (String x a ++ s)%string with (String x (a ++ s)). simpl.
  rewrite IH. unfold len. simpl String.length.
  destruct (Z.leb_spec 0 (Z.of_nat (String.length a) + LastIndexByteString s c)); lia.
Qed.

Lemma substring_drop a b n :
  substring (String.length a) n (a ++ b) = substring 0 n b.
Proof. induction a as [|x a IH]; [done|]. simpl. apply IH. Qed.

Lemma substring_take a b n :
  (n ≤ String.length a)%nat → substring 0 n (a ++ b) = substring 0 n a.
Proof.
  revert n. induction a as [|x a IH]; intros n Hn.
  - simpl in Hn. assert (n = 0%nat) as -> by lia. by destruct b.
  - destruct n as [|n]; [done|]. simpl in *. rewrite IH by lia. done.
Qed.

(** An address [[host]:port] splits into its two parts. *)
Lemma SplitHostPort_brackets host port :
  bracket_free host → plain port →
  SplitHostPort ("[" ++ host ++ "]:" ++ port) = (host, port, None).
Proof.
  intros [Hh1 Hh2] (Hp1 & Hp2 & Hp3).
  change ("[" ++ host ++ "]:" ++ port)%string
    with (String "[" (host ++ String "]" (String ":" port))).
  set (hostport := String "[" (host ++ String "]" (String ":" port))).
  assert (Hlast : LastIndexByteString hostport ":" = len host + 2).
  { unfold hostport. rewrite LastIndexByteString_cons_other; [|done|].
    - rewrite LastIndexByteString_skip.
      + simpl. rewrite (LastIndexByteString_none _ _ Hp1). simpl. lia.
      + simpl. rewrite (LastIndexByteString_none _ _ Hp1). simpl. lia.
    - rewrite LastIndexByteString_skip;
        simpl; rewrite (LastIndexByteString_none _ _ Hp1); simpl;
        unfold len; lia. }
  assert (Hend : IndexByteString hostport "]" = len host + 1).
  { unfold hostport. simpl. rewrite (IndexByteString_first _ _ _ Hh2).
    unfold len. destruct (Z.ltb_spec (Z.of_nat (String.length host)) 0); lia. }
  assert (Hlen : len hostport = len host + 3 + len port).
  { unfold hostport, len. simpl. rewrite length_app. simpl. lia. }
  unfold SplitHostPort. rewrite Hlast, Hend.
  change (byte_at_is hostport 0 "[") with true. cbv zeta.
  pose proof (Nat2Z.is_nonneg (String.length host)) as Hnn.
  pose proof (Nat2Z.is_nonneg (String.length port)) as Hnp.
  fold (len host) in Hnn. fold (len port) in Hnp.
  replace (len host + 2 <? 0) with false by (symmetry; apply Z.ltb_ge; lia).
  replace (len host + 1 <? 0) with false by (symmetry; apply Z.ltb_ge; lia).
  replace (len host + 1 + 1 =? len hostport) with false
    by (symmetry; apply Z.eqb_neq; lia).
  replace (len host + 1 + 1 =? len host + 2) with true
    by (symmetry; apply Z.eqb_eq; lia).
  simpl andb. cbv iota.
  assert (Hs1 : slice hostport 1 (len host + 1) = host).
  { unfold slice, hostport, len. simpl Z.to_nat.
    replace (Z.to_nat (Z.of_nat (String.length host) + 1 - 1))
      with (String.length host) by lia.
    change (Z.to_nat 1) with 1%nat. simpl. apply substring_prefix. }
  assert (Hs2 : slice hostport 1 (len hostport)
                = (host ++ String "]" (String ":" port))%string).
  { unfold slice. rewrite Hlen. unfold hostport, len.
    change (Z.to_nat 1) with 1%nat. simpl substring.
    replace (Z.to_nat _) with (String.length (host ++ String "]" (String ":" port))).
    - apply substring_all.
    - rewrite length_app. simpl. lia. }
  assert (Hs3 : slice hostport (len host + 1 + 1) (len hostport)
                = String ":" port).
  { unfold slice. rewrite Hlen. unfold hostport, len.
    replace (Z.to_nat (Z.of_nat (String.length host) + 1 + 1))
      with (S (String.length (host ++ "]"))) by (rewrite length_app; simpl; lia).
    replace (Z.to_nat _) with (String.length (String ":" port)) by (simpl; lia).
    simpl substring at 1.
    replace (host ++ String "]" (String ":" port))%string
      with ((host ++ "]") ++ String ":" port)%string.
    - rewrite substring_drop. exact (substring_all (String ":" port)).
    - clear. induction host as [|x host IH]; [done|].
      change (String x ((host ++ "]") ++ String ":" port)
              = String x (host ++ String "]" (String ":" port))).
      by rewrite IH. }
  assert (Hs4 : slice hostport (len host + 2 + 1) (len hostport) = port).
  { unfold slice. rewrite Hlen. unfold hostport, len.
    replace (Z.to_nat (Z.of_nat (String.length host) + 2 + 1))
      with (S (String.length (host ++ "]:"))) by (rewrite length_app; simpl; lia).
    replace (Z.to_nat _) with (String.length port) by lia.
    simpl substring at 1.
    replace (host ++ String "]" (String ":" port))%string
      with ((host ++ "]:") ++ port)%string.
    - apply substring_suffix.
    - clear. induction host as [|x host IH]; [done|].
      change (String x ((host ++ "]:") ++ port)
              = String x (host ++ String "]" (String ":" port))).
      by rewrite IH. }
  rewrite Hs1, Hs2, Hs3, Hs4.
  rewrite IndexByteString_app_none; [|done|].
  2: { apply IndexByteString_cons_none. split; [done|].
       apply IndexByteString_cons_none. by split. }
  simpl (0 <=? -1). cbv iota.
  replace (IndexByteString (String ":" port) "]") with (-1); [done|].
  symmetry. apply IndexByteString_cons_none. by split.
Qed.

(** Joining and splitting are inverse on a host without brackets. *)
Lemma SplitHostPort_JoinHostPort host port :
  bracket_free host → plain port →
  SplitHostPort (JoinHostPort host port) = (host, port, None).
Proof.
  intros [Hb1 Hb2] Hp. unfold JoinHostPort.
  pose proof (IndexByteString_ge host ":") as Hge.
  destruct (Z.leb_spec 0 (IndexByteString host ":")) as [Hc|Hc].
  - by apply SplitHostPort_brackets.
  - apply SplitHostPort_join; [|done]. repeat split; [lia|done|done].
Qed.

(** Every failure of [SplitHostPort] returns empty strings. *)
Lemma SplitHostPort_error hostport e :
  (SplitHostPort hostport).2 = Some e → (SplitHostPort hostport).1 = ("", "")%string.
Proof.
  unfold SplitHostPort, addrErr.
  repeat match goal with
         | |- context [if ?b then _ else _] => destruct b
         end; simpl; done.
Qed.

(** X1. Lines 100-102 bring a host without brackets to the form host:port:
    the result always splits; a host that already splits is left as it is;
    a host that does not is given the port 0 and splits back into itself
    and that port; doing it twice changes nothing more. *)
Theorem with_port_normal_form host :
  bracket_free host →
  (∃ h p, SplitHostPort (with_port host) = (h, p, None)) ∧
  ((SplitHostPort host).2 = None → with_port host = host) ∧
  (is_Some (SplitHostPort host).2 →
     SplitHostPort (with_port host) = (host, "0"%string, None)) ∧
  with_port (with_port host) = with_port host.
Proof.
  intros Hb.
  assert (Hjoin : SplitHostPort (JoinHostPort host "0")
                  = (host, "0"%string, None)).
  { apply SplitHostPort_JoinHostPort; [done|]. by repeat split. }
  destruct (SplitHostPort host) as [[h p] [e|]] eqn:Hs; simpl.
  - assert (Hwp : with_port host = JoinHostPort host "0")
      by (unfold with_port; by rewrite Hs).
    rewrite !Hwp. split; [by eauto|]. split; [done|]. split; [done|].
    unfold with_port. by rewrite Hjoin.
  - assert (Hwp : with_port host = host)
      by (unfold with_port; by rewrite Hs).
    rewrite !Hwp, Hs. split; [by eauto|]. split; [done|].
    split; [by intros [? [=]]|done].
Qed.

Lemma with_port_normal_form_witness :
  with_port "example.com" = "example.com:0"%string ∧
  SplitHostPort (with_port "::1") = ("::1", "0", None)%string ∧
  with_port "example.com:8080" = "example.com:8080"%string.
Proof.
  split; [reflexivity|]. split.
  - exact (proj1 (proj2 (proj2 (with_port_normal_form "::1"
             ltac:(by split)))) ltac:(by eexists)).
  - exact (proj1 (proj2 (with_port_normal_form "example.com:8080"
             ltac:(by split))) eq_refl).
Defined.

(** X2. The rate-limit key of a remote address that does not split is the
    empty string, so all such clients share the limiter of that key; the
    key of a bracketed address [[host]:port] is the host without the
    brackets. *)
Theorem limiter_key_edge_cases h conn :
  (is_Some (SplitHostPort (RemoteAddr conn)).2 →
     limiter_key conn = ""%string ∧
     ∀ rl, options_RateLimiter h = Some rl →
           allowed h conn = match rl ""%string with
                            | Some limiter => limiter 1
                            | None => true
                            end) ∧
  (∀ host port,
     bracket_free host → plain port →
     RemoteAddr conn = ("[" ++ host ++ "]:" ++ port)%string →
     limiter_key conn = host).
Proof.
  split.
  - intros [e He]. assert (Hk : limiter_key conn = ""%string).
    { unfold limiter_key. by rewrite (SplitHostPort_error _ _ He). }
    split; [done|]. intros rl Hrl. unfold allowed. by rewrite Hrl, Hk.
  - intros host port Hh Hp Haddr. unfold limiter_key.
    by rewrite Haddr, SplitHostPort_brackets.
Qed.

Lemma limiter_key_edge_cases_witness :
  limiter_key client_v6 = "::1"%string ∧ limiter_key client_unix = ""%string.
Proof.
  split.
  - exact (proj2 (limiter_key_edge_cases handler0 client_v6)
             "::1"%string "5000"%string
             ltac:(by split) ltac:(by vm_compute) eq_refl).
  - exact (proj1 (proj1 (limiter_key_edge_cases handler0 client_unix)
             ltac:(by eexists))).
Defined.

End AddressFacts.

(** * Properties of a whole session *)

Module SessionFacts.
Import GoNet GoHTTP Forward Session Examples ForwardFacts.
Local Open Scope list_scope.

Local Arguments dial_and_relay : simpl never.

Lemma sniffed_eta h E conn :
  sniffed h E conn
  = ((sniffed h E conn).1.1, (sniffed h E conn).1.2, (sniffed h E conn).2).
Proof. by destruct (sniffed h E conn) as [[? ?] ?]. Qed.

(** A session in one equation: its events, its markers, its result. *)
Lemma Handle_session h E conn w :
  Handle h E conn w =
    ({| markers := match resolved h E conn (markers w) with
                   | Some target =>
                       if allowed h conn then
                         match router h (network_of conn) (Addr target) with
                         | inl _ => set_marker target Dead (markers w)
                         | inr _ => set_marker target Alive (markers w)
                         end
                       else markers w
                   | None => markers w
                   end;
        trace := trace w ++ session_events h E conn (markers w) |},
     Ret (if allowed h conn then
            match resolved h E conn (markers w) with
            | None => Some ErrTargetNotAvailable
            | Some target =>
                match router h (network_of conn) (Addr target) with
                | inl err => Some err
                | inr _ => None
                end
            end
          else None)).
Proof.
  rewrite Handle_run. cbv zeta.
  unfold session_events, select_events, dial_events, resolved.
  destruct (allowed h conn); simpl.
  2: { destruct (sniffed h E conn) as [[rw host] protocol].
       unfold add_events; simpl.
       destruct (hop h) as [hp|]; [destruct (hp _ _ _)|]; by lnorm. }
  destruct (sniffed h E conn) as [[rw host] protocol]; simpl.
  destruct (hop h) as [hp|].
  - destruct (hp (markers w) (with_port host) protocol) as [target|].
    + destruct (router h (network_of conn) (Addr target)) as [err|cc] eqn:Hr.
      * rewrite (dial_fails _ _ _ _ _ _ _ _ _ Hr). unfold add_events; simpl.
        by lnorm.
      * rewrite (dial_succeeds _ _ _ _ _ _ _ _ _ Hr). unfold add_events; simpl.
        by lnorm.
    + unfold add_events; simpl. by lnorm.
  - simpl.
    destruct (router h (network_of conn) (with_port host)) as [err|cc] eqn:Hr.
    + rewrite (dial_fails h E conn (network_of conn) rw protocol
                 {| Addr := with_port host; Marker := None;
                    Options_HTTP := None |} _ err Hr).
      unfold add_events; simpl. by lnorm.
    + rewrite (dial_succeeds h E conn (network_of conn) rw protocol
                 {| Addr := with_port host; Marker := None;
                    Options_HTTP := None |} _ cc Hr).
      unfold add_events; simpl. by lnorm.
Qed.

(** ** Observers that look for one kind of event *)

Section Observer.
Context {A : Type} (g : Event → option A).

Lemma omap_limiter_events h conn :
  (∀ k, g (EvLimiter k) = None) → (∀ k n b, g (EvAllow k n b) = None) →
  omap g (limiter_events h conn) = [].
Proof.
  intros H1 H2. unfold limiter_events.
  destruct (options_RateLimiter h) as [rl|]; [|done].
  destruct (rl _); simpl; by rewrite ?H1, ?H2.
Qed.

Lemma omap_sniff_events h E conn :
  g EvSniffing = None → (∀ l s, g (EvLog l s) = None) →
  omap g (sniff_events h E conn) = [].
Proof.
  intros H1 H2. unfold sniff_events.
  destruct (_ && _); simpl; by rewrite ?H1, ?H2.
Qed.

Lemma omap_marker_events target ev :
  (∀ m, g (ev m) = None) → omap g (marker_events target ev) = [].
Proof.
  intros H. unfold marker_events. destruct (Marker target); simpl;
    by rewrite ?H.
Qed.

Lemma omap_relay_event E rw protocol target cc :
  (∀ a b c, g (EvTransport a b c) = None) →
  (∀ a b c, g (EvHandleHTTP a b c) = None) →
  g (relay_event E rw protocol target cc) = None.
Proof.
  intros H1 H2. unfold relay_event.
  by destruct (String.eqb protocol ProtoHTTP), (Options_HTTP target).
Qed.

Lemma omap_relay_event_singleton E rw protocol target cc :
  (∀ a b c, g (EvTransport a b c) = None) →
  (∀ a b c, g (EvHandleHTTP a b c) = None) →
  omap g [relay_event E rw protocol target cc] = [].
Proof. intros H1 H2. simpl. by rewrite omap_relay_event. Qed.

Lemma omap_select_events h E conn :
  (∀ a b, g (EvSelect a b) = None) → omap g (select_events h E conn) = [].
Proof.
  intros H. unfold select_events. destruct (hop h); simpl; by rewrite ?H.
Qed.

Lemma omap_cons2 e x l : omap g (e :: x :: l) = omap g [e] ++ omap g (x :: l).
Proof. apply (omap_app _ [e]). Qed.

Lemma omap_cons_app e a b :
  omap g (e :: a ++ b) = omap g [e] ++ omap g a ++ omap g b.
Proof. change (e :: a ++ b) with ([e] ++ a ++ b). by rewrite !omap_app. Qed.

Lemma omap_relay_cons E rw protocol target cc l :
  (∀ a b c, g (EvTransport a b c) = None) →
  (∀ a b c, g (EvHandleHTTP a b c) = None) →
  omap g (relay_event E rw protocol target cc :: l) = omap g l.
Proof. intros H1 H2. simpl. by rewrite omap_relay_event. Qed.

End Observer.

(** Push an observer through the pieces of a session's events. *)
Ltac observe :=
  repeat (rewrite omap_app || rewrite omap_cons2 || rewrite omap_cons_app);
  rewrite ?omap_relay_event_singleton, ?omap_limiter_events,
    ?omap_sniff_events, ?omap_select_events, ?omap_marker_events by done;
  simpl.

(** The events of a session whose dial succeeded end with the close of
    the dialled connection, after the relay. *)
Lemma session_events_dial_ok h E conn ms target cc :
  allowed h conn = true →
  resolved h E conn ms = Some target →
  router h (network_of conn) (Addr target) = inr cc →
  session_events h E conn ms =
    (opening conn :: limiter_events h conn ++ sniff_events h E conn
       ++ select_events h E conn
       ++ [EvLog Debug (RemoteAddr conn ++ " >> " ++ Addr target)%string;
           EvDial (network_of conn) (Addr target)]
       ++ marker_events target EvReset
       ++ [EvLog Debug (RemoteAddr conn ++ " <-> " ++ Addr target)%string;
           relay_event E (sniffed h E conn).1.1 (sniffed h E conn).2 target cc;
           EvLog Debug (RemoteAddr conn ++ " >-< " ++ Addr target)%string])
    ++ EvClose Target :: closing conn.
Proof.
  intros Hok Hres Hr. unfold session_events, dial_events.
  rewrite Hok, Hres, Hr. by lnorm.
Qed.

Lemma session_events_dial_fails h E conn ms target err :
  allowed h conn = true →
  resolved h E conn ms = Some target →
  router h (network_of conn) (Addr target) = inl err →
  session_events h E conn ms =
    opening conn :: limiter_events h conn ++ sniff_events h E conn
      ++ select_events h E conn
      ++ [EvLog Debug (RemoteAddr conn ++ " >> " ++ Addr target)%string;
          EvDial (network_of conn) (Addr target); EvLogError err]
      ++ marker_events target EvMark ++ closing conn.
Proof.
  intros Hok Hres Hr. unfold session_events, dial_events.
  rewrite Hok, Hres, Hr. by lnorm.
Qed.

Lemma session_events_no_target h E conn ms :
  allowed h conn = true →
  resolved h E conn ms = None →
  session_events h E conn ms =
    opening conn :: limiter_events h conn ++ sniff_events h E conn
      ++ select_events h E conn
      ++ [EvLogError ErrTargetNotAvailable] ++ closing conn.
Proof.
  intros Hok Hres. unfold session_events. rewrite Hok, Hres. by lnorm.
Qed.

Lemma session_events_denied h E conn ms :
  allowed h conn = false →
  session_events h E conn ms
  = opening conn :: limiter_events h conn ++ closing conn.
Proof. intros Hok. unfold session_events. by rewrite Hok. Qed.

(** The four ways a session can go. *)
Lemma session_cases h E conn ms :
  (allowed h conn = false ∧ dial_ok h E conn ms = false) ∨
  (allowed h conn = true ∧ resolved h E conn ms = None
   ∧ dial_ok h E conn ms = false) ∨
  (∃ target err, allowed h conn = true ∧ resolved h E conn ms = Some target
     ∧ router h (network_of conn) (Addr target) = inl err
     ∧ dial_ok h E conn ms = false) ∨
  (∃ target cc, allowed h conn = true ∧ resolved h E conn ms = Some target
     ∧ router h (network_of conn) (Addr target) = inr cc
     ∧ dial_ok h E conn ms = true).
Proof.
  unfold dial_ok. destruct (allowed h conn); [|by left].
  destruct (resolved h E conn ms) as [target|]; [|by right; left].
  destruct (router h (network_of conn) (Addr target)) as [err|cc] eqn:Hr.
  - right; right; left. exists target, err. by rewrite Hr.
  - right; right; right. exists target, cc. by rewrite Hr.
Qed.

(** X3. Every session closes the accepted connection, as its very last
    step and once.  The dialled connection is closed exactly when the dial
    succeeded, once, after the relay and right before the closing log line
    and the close of the accepted connection. *)
Theorem connections_closed h E conn w :
  ∃ evs ms' r,
    Handle h E conn w = ({| markers := ms'; trace := trace w ++ evs |}, r) ∧
    last evs = Some (EvClose Client) ∧
    closes evs = (if dial_ok h E conn (markers w) then [Target; Client]
                  else [Client]) ∧
    (dial_ok h E conn (markers w) = true →
     ∃ pre, evs = pre ++ EvClose Target :: closing conn ∧
            closes pre = [] ∧ Exists (λ e, is_relay e = true) pre).
Proof.
  rewrite Handle_session. eexists _, _, _. split; [done|].
  split; [|split].
  - unfold session_events. rewrite app_comm_cons, !app_assoc, last_app.
    reflexivity.
  - destruct (session_cases h E conn (markers w))
      as [[Hok ->]|[(Hok & Hres & ->)|[(target & err & Hok & Hres & Hr & ->)
         |(target & cc & Hok & Hres & Hr & ->)]]].
    + rewrite session_events_denied by done. unfold closes. by observe.
    + rewrite session_events_no_target by done. unfold closes. by observe.
    + rewrite (session_events_dial_fails _ _ _ _ _ _ Hok Hres Hr).
      unfold closes. by observe.
    + rewrite (session_events_dial_ok _ _ _ _ _ _ Hok Hres Hr).
      unfold closes. by observe.
  - intros Hdial.
    destruct (session_cases h E conn (markers w))
      as [[_ Hn]|[(_ & _ & Hn)|[(? & ? & _ & _ & _ & Hn)
         |(target & cc & Hok & Hres & Hr & _)]]]; try congruence.
    rewrite (session_events_dial_ok _ _ _ _ _ _ Hok Hres Hr).
    eexists; split; [done|]. split.
    + unfold closes. by observe.
    + apply Exists_exists. eexists. split; [|apply is_relay_relay_event].
      rewrite elem_of_cons, !elem_of_app, !elem_of_cons. eauto 12.
Qed.

Lemma connections_closed_witness :
  ∃ evs ms' r,
    Handle handler0 env0 client0 world0
      = ({| markers := ms'; trace := trace world0 ++ evs |}, r) ∧
    last evs = Some (EvClose Client) ∧ closes evs = [Target; Client] ∧
    ∃ pre, evs = pre ++ EvClose Target :: closing client0 ∧ closes pre = [].
Proof.
  destruct (connections_closed handler0 env0 client0 world0)
    as (evs & ms' & r & Hrun & Hlast & Hcl & Hok).
  destruct (Hok eq_refl) as (pre & Hpre & Hnone & _).
  exists evs, ms', r. split; [exact Hrun|]. split; [exact Hlast|].
  split; [exact Hcl|]. exists pre. split; [exact Hpre | exact Hnone].
Defined.

Ltac by_cases h E conn w :=
  destruct (session_cases h E conn (markers w))
    as [[Hok Hdial]|[(Hok & Hres & Hdial)
       |[(target & err & Hok & Hres & Hr & Hdial)
        |(target & cc & Hok & Hres & Hr & Hdial)]]];
  [rewrite (session_events_denied _ _ _ _ Hok)
  |rewrite (session_events_no_target _ _ _ _ Hok Hres)
  |rewrite (session_events_dial_fails _ _ _ _ _ _ Hok Hres Hr)
  |rewrite (session_events_dial_ok _ _ _ _ _ _ Hok Hres Hr)].

Lemma resolved_None h E conn ms :
  resolved h E conn ms = None → is_Some (hop h).
Proof.
  unfold resolved. destruct (sniffed h E conn) as [[rw host] protocol].
  by destruct (hop h).
Qed.

(** X4. [Handle] returns one of three things: nil, the error
    "target not available", or the error of the router's dial.  It
    returns nil exactly when the session was denied by the rate limiter or
    got its connection; whenever it returns an error nothing was relayed
    and no dialled connection was closed. *)
Theorem Handle_returns h E conn w :
  ∃ evs ms' r,
    Handle h E conn w = ({| markers := ms'; trace := trace w ++ evs |}, Ret r) ∧
    (r = None ↔ allowed h conn = false ∨ dial_ok h E conn (markers w) = true) ∧
    ∀ e, r = Some e →
      allowed h conn = true ∧
      ((resolved h E conn (markers w) = None ∧ is_Some (hop h)
        ∧ e = errors_New "target not available") ∨
       (∃ target, resolved h E conn (markers w) = Some target
                  ∧ router h (network_of conn) (Addr target) = inl e)) ∧
      Forall (λ ev, is_relay ev = false) evs ∧
      closes evs = [Client].
Proof.
  rewrite Handle_session. eexists _, _, _. split; [done|].
  assert (Hnr : ∀ l, omap (λ ev, if is_relay ev then Some ev else None) l = []
                     → Forall (λ ev, is_relay ev = false) l).
  { induction l as [|x l IH]; [by constructor|]. simpl.
    destruct (is_relay x) eqn:Hx; [done|]. constructor; auto. }
  by_cases h E conn w; rewrite Hok, ?Hres, ?Hr.
  - split; [split; [by left|done]|done].
  - split; [split; [done|intros [?|?]; congruence]|].
    intros e [= <-]. split; [done|]. split.
    { left. split; [done|]. split; [by eapply resolved_None|done]. }
    split; [apply Hnr|unfold closes]; by observe.
  - split; [split; [done|intros [?|?]; congruence]|].
    intros e [= <-]. split; [done|]. split; [right; by eauto|].
    split; [apply Hnr|unfold closes]; by observe.
  - split; [split; [by right|done]|done].
Qed.

Lemma Handle_returns_witness :
  ∃ evs ms' e,
    Handle handler_refused env0 client0 world0
      = ({| markers := ms'; trace := trace world0 ++ evs |}, Ret (Some e)) ∧
    router handler_refused "tcp" ":0" = inl e ∧ closes evs = [Client].
Proof.
  destruct (Handle_returns handler_refused env0 client0 world0)
    as (evs & ms' & r & Hrun & Hnil & Herr).
  destruct r as [e|].
  - destruct (Herr e eq_refl) as (_ & Hwhy & _ & Hcl).
    exists evs, ms', e. split; [exact Hrun|]. split; [|exact Hcl].
    destruct Hwhy as [(Hres & _)|(target & _ & Hr)]; [|exact Hr].
    vm_compute in Hres. discriminate Hres.
  - exfalso. destruct (proj1 Hnil eq_refl) as [H|H];
      vm_compute in H; discriminate H.
Defined.

(** X5. A session touches at most one marker, the one of the node it
    dials, and at most once; every other marker, and every marker when the
    session is denied or finds no target, is left as it was. *)
Theorem markers_frame h E conn w :
  ∃ evs ms' r,
    Handle h E conn w = ({| markers := ms'; trace := trace w ++ evs |}, r) ∧
    (marked evs = [] ∧ ms' = markers w ∨
     ∃ target m, allowed h conn = true
                 ∧ resolved h E conn (markers w) = Some target
                 ∧ Marker target = Some m ∧ marked evs = [m]) ∧
    ∀ m, m ∉ marked evs → ms' !! m = markers w !! m.
Proof.
  rewrite Handle_session. eexists _, _, _. split; [done|].
  assert (Hmk : ∀ target ev st,
            (∀ m, match ev m with EvMark x | EvReset x => Some x | _ => None end
                  = Some m) →
            (marked (marker_events target ev) = []
             ∧ set_marker target st (markers w) = markers w) ∨
            ∃ m, Marker target = Some m ∧ marked (marker_events target ev) = [m]
                 ∧ ∀ m', m' ≠ m →
                     set_marker target st (markers w) !! m' = markers w !! m').
  { intros target ev st Hev. unfold marker_events, set_marker, marked.
    destruct (Marker target) as [m|]; [right|by left].
    exists m. simpl. rewrite Hev. split; [done|]. split; [done|].
    intros m' Hne. by rewrite lookup_insert_ne. }
  by_cases h E conn w; rewrite ?Hres, ?Hok, ?Hr.
  - assert (Hms : match resolved h E conn (markers w) with
                  | Some _ => markers w
                  | None => markers w
                  end = markers w) by (by destruct (resolved _ _ _ _)).
    rewrite Hms.
    split; [left; split; [unfold marked; by observe|done]|done].
  - split; [left; split; [unfold marked; by observe|done]|done].
  - assert (Hm : marked (opening conn :: limiter_events h conn
               ++ sniff_events h E conn ++ select_events h E conn
               ++ [EvLog Debug (RemoteAddr conn ++ " >> " ++ Addr target)%string;
                   EvDial (network_of conn) (Addr target); EvLogError err]
               ++ marker_events target EvMark ++ closing conn)
             = marked (marker_events target EvMark)).
    { unfold marked. repeat (rewrite omap_app || rewrite omap_cons2
                             || rewrite omap_cons_app).
      rewrite ?omap_limiter_events, ?omap_sniff_events, ?omap_select_events
        by done. simpl. by rewrite app_nil_r. }
    rewrite Hm.
    destruct (Hmk target EvMark Dead ltac:(done)) as [[-> ->]|(m & Hmt & -> & Hfr)].
    + split; [by left|done].
    + split; [right; by eauto 8|]. intros m' Hm'. apply Hfr.
      by intros ->; apply Hm'; left.
  - assert (Hm : marked ((opening conn :: limiter_events h conn
               ++ sniff_events h E conn ++ select_events h E conn
               ++ [EvLog Debug (RemoteAddr conn ++ " >> " ++ Addr target)%string;
                   EvDial (network_of conn) (Addr target)]
               ++ marker_events target EvReset
               ++ [EvLog Debug (RemoteAddr conn ++ " <-> " ++ Addr target)%string;
                   relay_event E (sniffed h E conn).1.1 (sniffed h E conn).2
                     target cc;
                   EvLog Debug (RemoteAddr conn ++ " >-< " ++ Addr target)%string])
               ++ EvClose Target :: closing conn)
             = marked (marker_events target EvReset)).
    { unfold marked. repeat (rewrite omap_app || rewrite omap_cons2
                             || rewrite omap_cons_app).
      rewrite ?omap_relay_event_singleton, ?omap_limiter_events,
        ?omap_sniff_events, ?omap_select_events by done.
      simpl. by rewrite !app_nil_r. }
    rewrite Hm.
    destruct (Hmk target EvReset Alive ltac:(done)) as [[-> ->]|(m & Hmt & -> & Hfr)].
    + split; [by left|done].
    + split; [right; by eauto 8|]. intros m' Hm'. apply Hfr.
      by intros ->; apply Hm'; left.
Qed.

Lemma markers_frame_witness :
  ∃ evs ms' r,
    Handle handler_hop env0 client0 world0
      = ({| markers := ms'; trace := trace world0 ++ evs |}, r) ∧
    ms' !! 5 = markers world0 !! 5.
Proof.
  destruct (markers_frame handler_hop env0 client0 world0)
    as (evs & ms' & r & Hrun & Hcase & Hframe).
  exists evs, ms', r. split; [exact Hrun|]. apply Hframe.
  destruct Hcase as [[-> _]|(target & m & _ & Hres & Hm & ->)].
  - intros H. by apply elem_of_nil in H.
  - vm_compute in Hres. injection Hres as <-. injection Hm as <-.
    intros H. apply list_elem_of_singleton in H. discriminate H.
Defined.

Lemma sniffed_on h E conn :
  md_sniffing h = true → isPacketConn conn = false →
  sniffed h E conn = Sniffing E conn.
Proof. intros H1 H2. unfold sniffed. by rewrite H1, H2. Qed.

Lemma sniffed_off h E conn :
  md_sniffing h = false ∨ isPacketConn conn = true →
  sniffed h E conn = (conn_in conn, ""%string, ""%string).
Proof.
  intros H. unfold sniffed.
  destruct H as [->| ->]; [done|]. by rewrite andb_false_r.
Qed.

Lemma relays_session_dial_ok h E conn ms target cc :
  allowed h conn = true →
  resolved h E conn ms = Some target →
  router h (network_of conn) (Addr target) = inr cc →
  relays (session_events h E conn ms)
  = [relay_event E (sniffed h E conn).1.1 (sniffed h E conn).2 target cc].
Proof.
  intros Hok Hres Hr. rewrite (session_events_dial_ok _ _ _ _ _ _ Hok Hres Hr).
  unfold relays. repeat (rewrite omap_app || rewrite omap_cons2
                         || rewrite omap_cons_app).
  rewrite ?omap_limiter_events, ?omap_sniff_events, ?omap_select_events,
    ?omap_marker_events by done.
  simpl. by rewrite is_relay_relay_event.
Qed.

(** X6. A session whose dial succeeded relays once, and the relay is
    HTTP-aware exactly when sniffing is enabled, the connection is a stream,
    the sniffer said "http" and the node carries HTTP settings: then the
    requests are parsed from the reader the sniffer returned.  In every
    other case the relay is the plain transport, on the sniffer's reader
    when the stream was sniffed and on the accepted connection itself
    otherwise. *)
Theorem relay_mode h E conn w target cc :
  allowed h conn = true →
  resolved h E conn (markers w) = Some target →
  router h (network_of conn) (Addr target) = inr cc →
  ∃ evs ms' r,
    Handle h E conn w = ({| markers := ms'; trace := trace w ++ evs |}, r) ∧
    (∀ settings,
       md_sniffing h = true → isPacketConn conn = false →
       (Sniffing E conn).2 = "http"%string →
       Options_HTTP target = Some settings →
       relays evs =
         [EvHandleHTTP (data (target_in cc))
            (rewriteTask (trace_enabled E) settings
               (ReadRequests E (Sniffing E conn).1.1)).1
            (normalize (received (first_result E)
               (CopyBuffer (target_in cc)).2
               (rewriteTask (trace_enabled E) settings
                  (ReadRequests E (Sniffing E conn).1.1)).2))]) ∧
    (md_sniffing h = true → isPacketConn conn = false →
     (Sniffing E conn).2 ≠ "http"%string ∨ Options_HTTP target = None →
     ∃ to_target to_client res,
       Transport (schedule E) (Sniffing E conn).1.1 (target_in cc)
         = (to_target, to_client, res) ∧
       relays evs = [EvTransport to_target to_client res]) ∧
    (md_sniffing h = false ∨ isPacketConn conn = true →
     ∃ to_target to_client res,
       Transport (schedule E) (conn_in conn) (target_in cc)
         = (to_target, to_client, res) ∧
       relays evs = [EvTransport to_target to_client res]).
Proof.
  intros Hok Hres Hr. rewrite Handle_session. eexists _, _, _.
  split; [done|]. rewrite (relays_session_dial_ok _ _ _ _ _ _ Hok Hres Hr).
  unfold relay_event. split; [|split].
  - intros settings Hs Hp Hproto Hhttp.
    rewrite (sniffed_on _ _ _ Hs Hp), Hproto, Hhttp. done.
  - intros Hs Hp Hcase. rewrite (sniffed_on _ _ _ Hs Hp).
    destruct (Transport _ _ _) as [[to_target to_client] res].
    exists to_target, to_client, res. split; [done|].
    destruct Hcase as [Hproto| ->].
    + destruct (String.eqb_spec (Sniffing E conn).2 ProtoHTTP) as [Heq|_];
        [by destruct Hproto|done].
    + by destruct (String.eqb _ _).
  - intros Hoff. rewrite (sniffed_off _ _ _ Hoff). simpl.
    destruct (Transport _ _ _) as [[to_target to_client] res].
    by exists to_target, to_client, res.
Qed.

Lemma relay_mode_witness :
  ∃ evs ms' r,
    Handle handler_http env_http client0 world0
      = ({| markers := ms'; trace := trace world0 ++ evs |}, r) ∧
    ∃ to_client events result, relays evs = [EvHandleHTTP to_client events result].
Proof.
  destruct (relay_mode handler_http env_http client0 world0 node_http target0
              eq_refl eq_refl eq_refl) as (evs & ms' & r & Hrun & Hhttp & _ & _).
  exists evs, ms', r. split; [exact Hrun|].
  eexists _, _, _. exact (Hhttp settings_fwd eq_refl eq_refl eq_refl eq_refl).
Defined.

(** X7. The sniffer is called in a session exactly when the session is
    admitted, sniffing is enabled and the connection is a stream. *)
Theorem sniffing_step h E conn w :
  ∃ evs ms' r,
    Handle h E conn w = ({| markers := ms'; trace := trace w ++ evs |}, r) ∧
    (EvSniffing ∈ evs ↔
     allowed h conn = true ∧ md_sniffing h = true ∧ isPacketConn conn = false).
Proof.
  rewrite Handle_session. eexists _, _, _. split; [done|].
  assert (Hin : ∀ l, EvSniffing ∈ l ↔
             omap (λ e, match e with EvSniffing => Some () | _ => None end) l ≠ []).
  { induction l as [|x l IH]; [by rewrite elem_of_nil|].
    rewrite elem_of_cons, IH. simpl.
    destruct x; simpl;
      first [split; [done|by left]
            |split; [intros [?|?]; [discriminate|done]|by right]]. }
  assert (Hsn : omap (λ e, match e with EvSniffing => Some () | _ => None end)
                  (sniff_events h E conn) ≠ []
                ↔ md_sniffing h = true ∧ isPacketConn conn = false).
  { unfold sniff_events.
    destruct (md_sniffing h), (isPacketConn conn); simpl;
      (split; [try done; by intros []|try done; by intros [? ?]]). }
  rewrite Hin.
  by_cases h E conn w;
    repeat (rewrite omap_app || rewrite omap_cons2 || rewrite omap_cons_app);
    rewrite ?omap_relay_event_singleton, ?omap_limiter_events,
      ?omap_select_events, ?omap_marker_events by done; simpl;
    rewrite ?app_nil_r; try rewrite Hsn.
  - split; [done|]. intros (? & _). congruence.
  - tauto.
  - tauto.
  - tauto.
Qed.






End SessionFacts.

(** * Properties of the rewrite loop *)

Module RewriteFacts.
Import GoNet GoHTTP Forward Session Examples ForwardFacts.
Local Open Scope list_scope.

(** The events of one iteration on [req] up to its write. *)
Lemma rewriteTask_ReadOk tr settings req env next :
  rewriteTask tr settings (ReadOk req env next) =
    let req' := rewriteRequest settings (range_order env) req in
    let pre := EvReadRequest (inr req) :: (if tr then [EvDump req'] else []) in
    match write_result env with
    | Some e => (pre ++ [EvWrite req' (Some e)], e)
    | None =>
        if decide (Header_Get "Upgrade" (Header_ req') = "websocket") then
          (pre ++ [EvWrite req' None; EvRawCopy (data (unbuffered env))],
           fin (unbuffered env))
        else
          (pre ++ EvWrite req' None :: (rewriteTask tr settings next).1,
           (rewriteTask tr settings next).2)
    end.
Proof.
  simpl. destruct (write_result env); [done|]. case_decide.
  - unfold CopyBuffer. f_equal. by case_decide.
  - by destruct (rewriteTask tr settings next).
Qed.

(** X10. The loop of the rewrite task always leaves by one of three exits,
    after writing every earlier request without error: a read that fails,
    with the read error ([io.EOF] at a clean end); a write that fails, with
    the write error and no further read; or a websocket upgrade, with one
    raw copy as the last step. *)
Theorem rewrite_loop_exits tr settings s :
  ∃ evs s',
    loop_reaches tr settings s evs s' ∧
    match s' with
    | ReadFails e =>
        rewriteTask tr settings s = (evs ++ [EvReadRequest (inl e)], e)
    | ReadOk req env next =>
        let req' := rewriteRequest settings (range_order env) req in
        let pre := EvReadRequest (inr req)
                   :: (if tr then [EvDump req'] else []) in
        (∃ e, write_result env = Some e ∧
              rewriteTask tr settings s
              = (evs ++ pre ++ [EvWrite req' (Some e)], e)) ∨
        (write_result env = None ∧
         Header_Get "Upgrade" (Header_ req') = "websocket" ∧
         ∃ bytes err,
           rewriteTask tr settings s
           = (evs ++ pre ++ [EvWrite req' None; EvRawCopy bytes], err))
    end.
Proof.
  induction s as [e|req env next IH].
  - exists [], (ReadFails e). split; [constructor|done].
  - destruct (write_result env) as [e|] eqn:Hw.
    + exists [], (ReadOk req env next). split; [constructor|].
      left. exists e. split; [done|]. by rewrite rewriteTask_ReadOk, Hw.
    + destruct (decide (Header_Get "Upgrade"
          (Header_ (rewriteRequest settings (range_order env) req))
          = "websocket")) as [Hup|Hup].
      * exists [], (ReadOk req env next). split; [constructor|].
        right. split; [done|]. split; [done|].
        rewrite rewriteTask_ReadOk, Hw. cbv zeta. rewrite decide_True by done.
        by eexists _, _.
      * destruct IH as (evs & s' & Hreach & Hexit).
        eexists _, s'. split; [by apply reaches_next|].
        assert (Hstep : ∀ tl e,
          rewriteTask tr settings next = (evs ++ tl, e) →
          rewriteTask tr settings (ReadOk req env next)
          = ((EvReadRequest (inr req)
              :: (if tr then [EvDump (rewriteRequest settings (range_order env) req)]
                  else [])
              ++ EvWrite (rewriteRequest settings (range_order env) req) None
              :: evs) ++ tl, e)).
        { intros tl e Hn. rewrite rewriteTask_ReadOk, Hw. cbv zeta.
          rewrite decide_False by done. rewrite Hn. simpl.
          by rewrite <- !app_assoc. }
        destruct s' as [e|req' env' next'].
        -- by apply Hstep.
        -- destruct Hexit as [(e & Hw' & Hrun)|(Hw' & Hup' & b & e & Hrun)].
           ++ left. exists e. split; [done|]. by apply Hstep.
           ++ right. split; [done|]. split; [done|].
              exists b, e. by apply Hstep.
Qed.

(** X11. The rewrite task forwards the requests in the order in which they
    were parsed, each with the overrides applied, without dropping one in
    the middle or writing one twice: for some [n], the requests parsed are
    the first [n] of the stream and the requests written are those same
    [n], rewritten.  There is at most one raw copy. *)
Theorem rewrite_forwards_in_order tr settings s :
  ∃ n, (n ≤ List.length (requests s))%nat ∧
    parsed (rewriteTask tr settings s).1 = (take n (requests s)).*1 ∧
    writes (rewriteTask tr settings s).1
      = rewritten settings <$> take n (requests s) ∧
    (List.length (raw_copies (rewriteTask tr settings s).1) ≤ 1)%nat.
Proof.
  induction s as [e|req env next (n & Hn & Hp & Hw & Hr)].
  - exists 0%nat. simpl. repeat split; lia.
  - rewrite rewriteTask_ReadOk. cbv zeta.
    destruct (write_result env) as [e|].
    { exists 1%nat. simpl. split; [lia|].
      unfold parsed, writes, raw_copies, rewritten.
      destruct tr; simpl; repeat split; lia. }
    case_decide.
    { exists 1%nat. simpl. split; [lia|].
      unfold parsed, writes, raw_copies, rewritten.
      destruct tr; simpl; repeat split; lia. }
    exists (S n). simpl. split; [lia|].
    unfold parsed, writes, raw_copies, rewritten in *.
    destruct tr; cbn; rewrite Hp, Hw; repeat split; done.
Qed.

Lemma Request_eq (a b : Request) :
  Method a = Method b → RequestURI a = RequestURI b → Proto a = Proto b →
  Header_ a = Header_ b → Body a = Body b → Host a = Host b → a = b.
Proof. destruct a, b; simpl; by intros -> -> -> -> -> ->. Qed.

Lemma rewriteRequest_fields settings order req :
  Method (rewriteRequest settings order req) = Method req ∧
  RequestURI (rewriteRequest settings order req) = RequestURI req ∧
  Proto (rewriteRequest settings order req) = Proto req ∧
  Body (rewriteRequest settings order req) = Body req ∧
  Host (rewriteRequest settings order req)
    = (if decide (settings_Host settings ≠ "") then settings_Host settings
       else Host req).
Proof.
  rewrite rewriteRequest_unfold.
  destruct (apply_headers_fields order
    (if decide (settings_Host settings ≠ "")
     then set_Host (settings_Host settings) req else req))
    as (-> & -> & -> & -> & ->).
  by case_decide.
Qed.

Lemma rewriteRequest_lookup settings order req c :
  Header_ (rewriteRequest settings order req) !! c =
    match last (set_under c order) with
    | Some v => Some [v]
    | None => Header_ req !! c
    end.
Proof.
  rewrite rewriteRequest_unfold, apply_headers_lookup. by case_decide.
Qed.


(** With distinct canonical names, the value that ends up under a name
    does not depend on the order. *)
Lemma last_set_under (m : gmap string string) order c :
  order ≡ₚ map_to_list m →
  (∀ k1 k2, is_Some (m !! k1) → is_Some (m !! k2) →
     CanonicalMIMEHeaderKey k1 = CanonicalMIMEHeaderKey k2 → k1 = k2) →
  ∀ v, last (set_under c order) = Some v ↔
       ∃ k, m !! k = Some v ∧ CanonicalMIMEHeaderKey k = c.
Proof.
  intros Hperm Hinj v.
  assert (Hin : ∀ k v, (k, v) ∈ order ↔ m !! k = Some v).
  { intros k' v'. rewrite Hperm. apply elem_of_map_to_list. }
  split.
  - intros (k & Hk & Hc)%last_Some_elem_of%set_under_elem.
    exists k. by rewrite <- Hin.
  - intros (k & Hk & Hc).
    destruct (last (set_under c order)) as [v'|] eqn:Hlast.
    + apply last_Some_elem_of, set_under_elem in Hlast as (k' & Hk' & Hc').
      apply Hin in Hk'. assert (k' = k) as -> by (apply Hinj; eauto; congruence).
      congruence.
    + apply last_None in Hlast.
      assert (v ∈ set_under c order) as Hv
        by (apply set_under_elem; exists k; by rewrite Hin).
      rewrite Hlast in Hv. by apply elem_of_nil in Hv.
Qed.

(** X13. When no two configured header names have the same canonical form,
    the rewritten request does not depend on the order in which Go ranges
    over the header map. *)
Theorem rewriteRequest_order_independent settings order1 order2 req :
  order1 ≡ₚ map_to_list (settings_Header settings) →
  order2 ≡ₚ map_to_list (settings_Header settings) →
  (∀ k1 k2, is_Some (settings_Header settings !! k1) →
            is_Some (settings_Header settings !! k2) →
            CanonicalMIMEHeaderKey k1 = CanonicalMIMEHeaderKey k2 → k1 = k2) →
  rewriteRequest settings order1 req = rewriteRequest settings order2 req.
Proof.
  intros H1 H2 Hinj.
  destruct (rewriteRequest_fields settings order1 req)
    as (HM & HU & HP & HB & HH).
  destruct (rewriteRequest_fields settings order2 req)
    as (HM' & HU' & HP' & HB' & HH').
  apply Request_eq; try congruence.
  apply map_eq. intros c. rewrite !rewriteRequest_lookup.
  assert (Hl : last (set_under c order1) = last (set_under c order2)).
  { apply option_eq. intros v.
    by rewrite (last_set_under _ _ _ H1 Hinj), (last_set_under _ _ _ H2 Hinj). }
  by rewrite Hl.
Qed.

Lemma rewriteRequest_order_independent_witness :
  rewriteRequest settings_two [("X-A", "1"); ("x-b", "2")] request_next
  = rewriteRequest settings_two [("x-b", "2"); ("X-A", "1")] request_next.
Proof.
  apply rewriteRequest_order_independent.
  - vm_compute. first [reflexivity | apply perm_swap].
  - vm_compute. first [reflexivity | apply perm_swap].
  - intros k1 k2 [v1 H1] [v2 H2] Hc.
    unfold settings_two in H1, H2. cbn [settings_Header] in H1, H2.
    apply lookup_insert_Some in H1 as [[<- _]|[_ [<- _]%lookup_singleton_Some]];
    apply lookup_insert_Some in H2 as [[<- _]|[_ [<- _]%lookup_singleton_Some]];
    first [reflexivity | by vm_compute in Hc].
Defined.
End RewriteFacts.
